(** * Fila de atendimento: the in-memory queue of [main.py]

    A shallow embedding of the request handlers of the FastAPI service and
    of the routine [ordenar_recalcular_posicoes] they all call.

    Python objects have identity: the global list [fila] holds references
    to [Cliente] objects, [ordenar_recalcular_posicoes] writes [posicao]
    through those references, and [post_fila] returns the very object it
    appended.  The model therefore keeps an object heap ([gmap] from object
    identities to field records) next to the list of references. *)

From Stdlib Require Import ZArith String DecimalString.
From stdpp Require Import base numbers option list strings gmap.

Local Open Scope Z_scope.

(** ** Data model *)

(** [TipoAtendimento = Literal["N", "P"]]: Normal ou Prioritário. *)
Inductive TipoAtendimento : Set :=
  | Normal       (* "N" *)
  | Prioritario. (* "P" *)

#[global] Instance TipoAtendimento_eq_dec : EqDecision TipoAtendimento.
Proof. solve_decision. Defined.

(** A timezone-aware [datetime] in UTC, as microseconds since the epoch. *)
Definition datetime : Type := Z.

(** [class ClienteIn(BaseModel)], after validation by the framework. *)
Record ClienteIn : Type := mkClienteIn {
  novo_nome : string;
  novo_tipo : TipoAtendimento
}.

(** [class Cliente(BaseModel)]. *)
Record Cliente : Type := mkCliente {
  posicao : Z;
  nome : string;
  chegada : datetime;
  tipo : TipoAtendimento;
  atendido : bool
}.

#[global] Instance Cliente_eq_dec : EqDecision Cliente.
Proof. solve_decision. Defined.

#[global] Instance Cliente_inhabited : Inhabited Cliente :=
  populate (mkCliente 0 "" 0 Normal false).

(** Attribute assignment [c.posicao = i] and [c.atendido = b]. *)
Definition set_posicao (i : Z) (c : Cliente) : Cliente :=
  mkCliente i (nome c) (chegada c) (tipo c) (atendido c).

Definition set_atendido (b : bool) (c : Cliente) : Cliente :=
  mkCliente (posicao c) (nome c) (chegada c) (tipo c) b.

(** Object identities and the program state: the heap of [Cliente]
    objects and the module-level list [fila] of references to them. *)
Definition obj : Type := positive.

Record Estado : Type := mkEstado {
  heap : gmap obj Cliente;
  fila : list obj
}.

(** [fila: List[Cliente] = []] at import time. *)
Definition inicial : Estado := mkEstado ∅ [].

(** ** [list.sort(key=...)] and [enumerate]

    Python guarantees that [list.sort] is stable; it is modelled by a
    stable insertion sort on the key. *)
Section Sort.
Context {A : Type} (key : A → Z).

Fixpoint insert_key (x : A) (l : list A) : list A :=
  match l with
  | [] => [x]
  | y :: l' =>
      if decide (key x ≤ key y) then x :: y :: l' else y :: insert_key x l'
  end.

Definition sort_key (l : list A) : list A := foldr insert_key [] l.
End Sort.

Fixpoint enumerate {A : Type} (start : Z) (l : list A) : list (Z * A) :=
  match l with
  | [] => []
  | x :: l' => (start, x) :: enumerate (start + 1) l'
  end.

(** ** The queue routines *)

(** [lambda c: (0 if c.tipo == "P" else 1)] *)
Definition chave (h : gmap obj Cliente) (c : obj) : Z :=
  if decide (tipo (h !!! c) = Prioritario) then 0 else 1.

(** [for i, c in enumerate(nao_atendidos, start=1): c.posicao = i] *)
Definition renumerar (h : gmap obj Cliente) (l : list (Z * obj))
    : gmap obj Cliente :=
  foldl (λ h' ic, alter (set_posicao ic.1) ic.2 h') h l.

Definition ordenar_recalcular_posicoes (st : Estado) : Estado :=
  let h := heap st in
  let nao_atendidos := filter (λ c, ¬ atendido (h !!! c)) (fila st) in
  let atendidos := filter (λ c, atendido (h !!! c)) (fila st) in
  let nao_atendidos := sort_key (chave h) nao_atendidos in
  let h := renumerar h (enumerate 1 nao_atendidos) in
  mkEstado h (nao_atendidos ++ atendidos).

Fixpoint encontrar_em (h : gmap obj Cliente) (l : list obj) (p : Z)
    : option obj :=
  match l with
  | [] => None
  | c :: l' =>
      if decide (posicao (h !!! c) = p) then Some c else encontrar_em h l' p
  end.

Definition encontrar_por_posicao (st : Estado) (p : Z) : option obj :=
  encontrar_em (heap st) (fila st) p.

(** [list.remove(x)] deletes the first item that is [x] itself or compares
    equal to it (pydantic models compare equal when their fields do), and
    raises [ValueError] when there is none. *)
Fixpoint list_remove (h : gmap obj Cliente) (x : obj) (l : list obj)
    : option (list obj) :=
  match l with
  | [] => None
  | c :: l' =>
      if decide (c = x ∨ h !!! c = h !!! x) then Some l'
      else (c ::.) <$> list_remove h x l'
  end.

(** ** Endpoints *)

Record HTTPException : Type := mkHTTPException {
  status_code : Z;
  detail : string
}.

Inductive Excecao : Type :=
  | HTTP (e : HTTPException)
  | ValueError.

Definition HTTP_404_NOT_FOUND : Z := 404.

(** Formatting of an [int] inside an f-string. *)
Definition str_int (z : Z) : string := NilZero.string_of_int (Z.to_int z).

Definition nao_existe (id : Z) : Excecao :=
  HTTP (mkHTTPException HTTP_404_NOT_FOUND
          ("Não existe cliente na posição " +:+ str_int id +:+ ".")).

(** [[c for c in fila if not c.atendido]] *)
Definition nao_atendidos (st : Estado) : list obj :=
  filter (λ c, ¬ atendido (heap st !!! c)) (fila st).

Definition raiz : string * string * list string :=
  ("API Fila de Atendimento online", "/docs", ["/fila"; "/fila/{id}"])%string.

Definition get_fila (st : Estado) : Estado * list obj :=
  let st := ordenar_recalcular_posicoes st in
  (st, nao_atendidos st).

Definition get_fila_id (id : Z) (st : Estado) : Estado * (Excecao + obj) :=
  let st := ordenar_recalcular_posicoes st in
  match encontrar_por_posicao st id with
  | Some cliente =>
      if atendido (heap st !!! cliente) then (st, inl (nao_existe id))
      else (st, inr cliente)
  | None => (st, inl (nao_existe id))
  end.

(** [agora] is the value read from the clock by [agora_utc()]. *)
Definition post_fila (novo : ClienteIn) (agora : datetime) (st : Estado)
    : Estado * obj :=
  let cliente := fresh (dom (heap st)) in
  let c := mkCliente 999999 (novo_nome novo) agora (novo_tipo novo) false in
  let st := mkEstado (<[cliente := c]> (heap st)) (fila st ++ [cliente]) in
  let st := ordenar_recalcular_posicoes st in
  (st, cliente).

(** [primeiro.posicao = 0; primeiro.atendido = True] *)
Definition servir (primeiro : obj) (st : Estado) : Estado :=
  mkEstado
    (alter (set_atendido true) primeiro
       (alter (set_posicao 0) primeiro (heap st)))
    (fila st).

Definition put_fila (st : Estado) : Estado * list obj :=
  let st := ordenar_recalcular_posicoes st in
  let st :=
    match encontrar_por_posicao st 1 with
    | Some primeiro => servir primeiro st
    | None => st
    end in
  let st := ordenar_recalcular_posicoes st in
  (st, nao_atendidos st).

Definition delete_fila_id (id : Z) (st : Estado) : Estado * (Excecao + ()) :=
  let st := ordenar_recalcular_posicoes st in
  match encontrar_por_posicao st id with
  | Some cliente =>
      if atendido (heap st !!! cliente) then (st, inl (nao_existe id))
      else
        match list_remove (heap st) cliente (fila st) with
        | Some l =>
            let st := mkEstado (heap st) l in
            let st := ordenar_recalcular_posicoes st in
            (st, inr ())
        | None => (st, inl ValueError)
        end
  | None => (st, inl (nao_existe id))
  end.

(** What a response shows of a returned object: its fields when the
    handler returns. *)
Definition ver (st : Estado) (c : obj) : Cliente := heap st !!! c.


(** ** Requests and reachable states *)

Inductive Pedido : Type :=
  | GetRaiz
  | GetFila
  | GetFilaId (id : Z)
  | PostFila (novo : ClienteIn) (agora : datetime)
  | PutFila
  | DeleteFilaId (id : Z).

(** The effect of serving one request on the state. *)
Definition executar (p : Pedido) (st : Estado) : Estado :=
  match p with
  | GetRaiz => st
  | GetFila => (get_fila st).1
  | GetFilaId id => (get_fila_id id st).1
  | PostFila novo agora => (post_fila novo agora st).1
  | PutFila => (put_fila st).1
  | DeleteFilaId id => (delete_fila_id id st).1
  end.

(** The objects a request creates (the one [post_fila] returns). *)
Definition criados (p : Pedido) (st : Estado) : list obj :=
  match p with
  | PostFila novo agora => [(post_fila novo agora st).2]
  | _ => []
  end.

Definition executar_todos (ps : list Pedido) (st : Estado) : Estado :=
  foldl (λ st p, executar p st) st ps.

(** [alcancavel hist st]: the service can be in state [st] after some
    sequence of requests, and [hist] lists the objects enqueued so far,
    oldest first. *)
Inductive alcancavel : list obj → Estado → Prop :=
  | alc_inicial : alcancavel [] inicial
  | alc_passo hist st p :
      alcancavel hist st →
      alcancavel (hist ++ criados p st) (executar p st).

(** Observations on a state. *)
Definition posicoes (st : Estado) : list Z :=
  (λ c, posicao (heap st !!! c)) <$> nao_atendidos st.

Definition bem_formado (st : Estado) : Prop :=
  NoDup (fila st) ∧ ∀ c, c ∈ fila st → is_Some (heap st !! c).

(** The objects that sort first: [c.tipo == "P"]. *)
Definition prio (h : gmap obj Cliente) (c : obj) : Prop :=
  tipo (h !!! c) = Prioritario.

#[global] Instance prio_dec h c : Decision (prio h c).
Proof. unfold prio. apply _. Defined.

(** The last index written to object [c] by the renumbering loop. *)
Fixpoint ultima (l : list (Z * obj)) (c : obj) : option Z :=
  match l with
  | [] => None
  | (i, x) :: l' =>
      match ultima l' c with
      | Some j => Some j
      | None => if decide (x = c) then Some i else None
      end
  end.

(** The two halves of the list that [ordenar_recalcular_posicoes] writes
    back: the sorted unserved objects and the served ones. *)
Definition ordenados (st : Estado) : list obj :=
  sort_key (chave (heap st)) (nao_atendidos st).

Definition atendidos (st : Estado) : list obj :=
  filter (λ c, atendido (heap st !!! c)) (fila st).

(** The unserved objects of one service type, in list order. *)
Definition grupo (t : TipoAtendimento) (st : Estado) : list obj :=
  filter (λ c, tipo (heap st !!! c) = t) (nao_atendidos st).

(** [a] occurs at an earlier index than [b]. *)
Definition antes {A : Type} (l : list A) (a b : A) : Prop :=
  ∃ i j : nat, l !! i = Some a ∧ l !! j = Some b ∧ (i < j)%nat.

(** Some unserved object of the list holds position [id]. *)
Definition ocupada_em (st : Estado) (id : Z) : Prop :=
  ∃ c, c ∈ fila st ∧ ¬ atendido (heap st !!! c) ∧ posicao (heap st !!! c) = id.

(** Two snapshots of an object that agree on name, arrival time and
    service type. *)
Definition mesmos_dados (o o' : Cliente) : Prop :=
  nome o' = nome o ∧ chegada o' = chegada o ∧ tipo o' = tipo o.

(** What every request preserves. *)
Record inv (hist : list obj) (st : Estado) : Prop := mkInv {
  inv_bem_formado : bem_formado st;
  inv_sentinela : ∀ c,
    c ∈ fila st → atendido (heap st !!! c) → posicao (heap st !!! c) = 0;
  inv_hist_NoDup : NoDup hist;
  inv_hist_heap : ∀ c, c ∈ hist → is_Some (heap st !! c);
  inv_grupo : ∀ t, grupo t st `sublist_of` hist
}.

(** * Properties *)

(** ** The scenarios of the specification, run on the model *)

Example cenario_ana_bob :
  let st1 := (post_fila (mkClienteIn "Ana" Normal) 10 inicial).1 in
  let st2 := (post_fila (mkClienteIn "Bob" Prioritario) 20 st1).1 in
  ver st1 <$> (get_fila st1).2 = [mkCliente 1 "Ana" 10 Normal false] ∧
  ver st2 <$> (get_fila st2).2
  = [mkCliente 1 "Bob" 20 Prioritario false;
     mkCliente 2 "Ana" 10 Normal false].
Proof. by vm_compute. Qed.

Example cenario_put :
  let st1 := (post_fila (mkClienteIn "Ana" Normal) 10 inicial).1 in
  let st2 := (post_fila (mkClienteIn "Bob" Prioritario) 20 st1).1 in
  let r := put_fila st2 in
  ver r.1 <$> r.2 = [mkCliente 1 "Ana" 10 Normal false] ∧
  ver r.1 <$> fila r.1
  = [mkCliente 1 "Ana" 10 Normal false;
     mkCliente 0 "Bob" 20 Prioritario true].
Proof. by vm_compute. Qed.

Example cenario_delete :
  let st1 := (post_fila (mkClienteIn "Ana" Normal) 10 inicial).1 in
  let st2 := (post_fila (mkClienteIn "Carla" Normal) 20 st1).1 in
  let r := delete_fila_id 1 st2 in
  r.2 = inr () ∧
  ver r.1 <$> fila r.1 = [mkCliente 1 "Carla" 20 Normal false] ∧
  (get_fila_id 5 st2).2 = inl (nao_existe 5).
Proof. by vm_compute. Qed.

(** A served object is invisible to lookups by position. *)
Example cenario_atendido :
  let st1 := (post_fila (mkClienteIn "Ana" Normal) 10 inicial).1 in
  let st2 := (put_fila st1).1 in
  (delete_fila_id 1 st2).2 = inl (nao_existe 1) ∧
  (delete_fila_id 0 st2).2 = inl (nao_existe 0) ∧
  (get_fila_id 0 st2).2 = inl (nao_existe 0).
Proof. by vm_compute. Qed.

Example str_int_exemplos :
  str_int 0 = "0" ∧ str_int 12 = "12" ∧ str_int (-5) = "-5".
Proof. by vm_compute. Qed.

(** ** The stable sort on a two-valued key *)

Section SortLemmas.
Context {A : Type} (key : A → Z).

Lemma insert_key_le_head x l :
  Forall (λ y, key x ≤ key y) l → insert_key key x l = x :: l.
Proof.
  destruct 1 as [|y l Hy _]; simpl; [done|].
  by rewrite decide_True.
Qed.

Lemma insert_key_skip x l1 l2 :
  Forall (λ y, key y < key x) l1 →
  insert_key key x (l1 ++ l2) = l1 ++ insert_key key x l2.
Proof.
  induction 1 as [|y l1 Hy _ IH]; simpl; [done|].
  rewrite decide_False by lia. by rewrite IH.
Qed.
End SortLemmas.

Lemma filter_never {A : Type} (l : list A) : filter (λ _, False) l = [].
Proof.
  induction l as [|x l IH]; [done|]. by rewrite filter_cons_False by tauto.
Qed.

Section Heap.
Context (h : gmap obj Cliente).

Lemma chave_prio c : prio h c → chave h c = 0.
Proof. unfold prio, chave. intros. by rewrite decide_True. Qed.

Lemma chave_normal c : ¬ prio h c → chave h c = 1.
Proof. unfold prio, chave. intros. by rewrite decide_False. Qed.

Lemma chave_bounds c : 0 ≤ chave h c ≤ 1.
Proof. unfold chave. case_decide; lia. Qed.

(** A stable sort on the key of [ordenar_recalcular_posicoes] lists the
    'P' objects in their order, then the others in theirs. *)
Lemma sort_chave l :
  sort_key (chave h) l = filter (prio h) l ++ filter (λ c, ¬ prio h c) l.
Proof.
  induction l as [|c l IH]; simpl; [done|].
  rewrite IH. destruct (decide (prio h c)) as [Hc|Hc].
  - rewrite (filter_cons_True (prio h)), (filter_cons_False (λ c, ¬ prio h c))
      by tauto.
    apply insert_key_le_head, Forall_forall. intros y _.
    rewrite (chave_prio c Hc). apply chave_bounds.
  - rewrite (filter_cons_False (prio h)), (filter_cons_True (λ c, ¬ prio h c))
      by tauto.
    rewrite insert_key_skip.
    + f_equal. apply insert_key_le_head, Forall_forall. intros y Hy.
      apply list_elem_of_filter in Hy as [Hy _].
      by rewrite (chave_normal c), (chave_normal y).
    + apply Forall_forall. intros y Hy.
      apply list_elem_of_filter in Hy as [Hy _].
      rewrite (chave_normal c), (chave_prio y) by done. lia.
Qed.

Lemma sort_chave_perm l : sort_key (chave h) l ≡ₚ l.
Proof. rewrite sort_chave. apply filter_app_complement. Qed.

Lemma sort_chave_elem_of l c : c ∈ sort_key (chave h) l ↔ c ∈ l.
Proof. by rewrite sort_chave_perm. Qed.

Lemma sort_chave_NoDup l : NoDup l → NoDup (sort_key (chave h) l).
Proof. by rewrite sort_chave_perm. Qed.

Lemma sort_chave_length l : length (sort_key (chave h) l) = length l.
Proof. by rewrite sort_chave_perm. Qed.

(** Filtering commutes with the sort: this is stability. *)
Lemma sort_chave_filter (Q : obj → Prop) `{!∀ c, Decision (Q c)} l :
  filter Q (sort_key (chave h) l) = sort_key (chave h) (filter Q l).
Proof.
  rewrite !sort_chave, filter_app, !list_filter_filter.
  f_equal; apply list_filter_iff; tauto.
Qed.

Lemma sort_chave_filter_prio l :
  filter (prio h) (sort_key (chave h) l) = filter (prio h) l.
Proof.
  rewrite sort_chave, filter_app, !list_filter_filter.
  rewrite (list_filter_iff _ (prio h)) by tauto.
  rewrite (list_filter_iff (λ c, prio h c ∧ ¬ prio h c) (λ _, False)) by tauto.
  replace (filter (λ _ : obj, False) l) with (@nil obj).
  - by rewrite app_nil_r.
  - by rewrite filter_never.
Qed.

Lemma sort_chave_filter_normal l :
  filter (λ c, ¬ prio h c) (sort_key (chave h) l) = filter (λ c, ¬ prio h c) l.
Proof.
  rewrite sort_chave, filter_app, !list_filter_filter.
  rewrite (list_filter_iff (λ c, ¬ prio h c ∧ prio h c) (λ _, False)) by tauto.
  rewrite (list_filter_iff (λ c, ¬ prio h c ∧ ¬ prio h c) (λ c, ¬ prio h c))
    by tauto.
  replace (filter (λ _ : obj, False) l) with (@nil obj); [done|].
  by rewrite filter_never.
Qed.

Lemma sort_chave_idemp l :
  sort_key (chave h) (sort_key (chave h) l) = sort_key (chave h) l.
Proof.
  rewrite (sort_chave (sort_key _ _)).
  by rewrite sort_chave_filter_prio, sort_chave_filter_normal, <- sort_chave.
Qed.
End Heap.

(** ** The renumbering loop *)

Lemma set_posicao_set_posicao i j c :
  set_posicao j (set_posicao i c) = set_posicao j c.
Proof. done. Qed.

Lemma renumerar_cons h i x l :
  renumerar h ((i, x) :: l) = renumerar (alter (set_posicao i) x h) l.
Proof. done. Qed.

(** Each object ends up with the last index written to it, and is
    otherwise what it was. *)
Lemma renumerar_lookup h l c :
  renumerar h l !! c = from_option set_posicao id (ultima l c) <$> h !! c.
Proof.
  revert h. induction l as [|[i x] l IH]; intros h.
  - simpl. by rewrite option_fmap_id.
  - rewrite renumerar_cons, IH. simpl.
    destruct (ultima l c) as [j|]; simpl.
    + rewrite lookup_alter. case_decide; [subst|done].
      by destruct (h !! c).
    + rewrite lookup_alter. case_decide; subst; simpl; by destruct (h !! c).
Qed.

Lemma renumerar_is_Some h l c :
  is_Some (renumerar h l !! c) ↔ is_Some (h !! c).
Proof. rewrite renumerar_lookup. apply fmap_is_Some. Qed.

Lemma renumerar_campos h l c :
  nome (renumerar h l !!! c) = nome (h !!! c) ∧
  chegada (renumerar h l !!! c) = chegada (h !!! c) ∧
  tipo (renumerar h l !!! c) = tipo (h !!! c) ∧
  atendido (renumerar h l !!! c) = atendido (h !!! c).
Proof.
  rewrite !lookup_total_alt, renumerar_lookup.
  destruct (h !! c); [|done]. by destruct (ultima l c).
Qed.

Lemma renumerar_atendido h l c :
  atendido (renumerar h l !!! c) = atendido (h !!! c).
Proof. apply renumerar_campos. Qed.

Lemma renumerar_tipo h l c :
  tipo (renumerar h l !!! c) = tipo (h !!! c).
Proof. apply renumerar_campos. Qed.

Lemma renumerar_posicao h l c i :
  ultima l c = Some i → is_Some (h !! c) →
  posicao (renumerar h l !!! c) = i.
Proof.
  intros Hu [o Ho]. by rewrite lookup_total_alt, renumerar_lookup, Ho, Hu.
Qed.

Lemma renumerar_intacto h l c :
  ultima l c = None → renumerar h l !! c = h !! c.
Proof. intros Hu. rewrite renumerar_lookup, Hu. apply option_fmap_id. Qed.

Lemma ultima_enumerate_None s l c :
  c ∉ l → ultima (enumerate s l) c = None.
Proof.
  revert s. induction l as [|x l IH]; intros s Hc; simpl; [done|].
  apply not_elem_of_cons in Hc as [Hx Hc].
  rewrite IH by done. by rewrite decide_False.
Qed.

Lemma ultima_enumerate_NoDup s l k c :
  NoDup l → l !! k = Some c → ultima (enumerate s l) c = Some (s + Z.of_nat k).
Proof.
  revert s k. induction l as [|x l IH]; intros s k Hnd Hk; [done|].
  apply NoDup_cons in Hnd as [Hx Hnd]. simpl.
  destruct k as [|k]; simpl in Hk.
  - injection Hk as ->. rewrite ultima_enumerate_None by done.
    rewrite decide_True by done. f_equal. lia.
  - rewrite (IH (s + 1) k) by done. f_equal. lia.
Qed.

(** On a duplicate-free list of live objects the loop numbers the objects
    [s], [s+1], ... in list order. *)
Lemma renumerar_enumerate h s l :
  NoDup l → (∀ c, c ∈ l → is_Some (h !! c)) →
  (λ c, posicao (renumerar h (enumerate s l) !!! c)) <$> l
  = seqZ s (Z.of_nat (length l)).
Proof.
  intros Hnd Hl. apply list_eq. intros k.
  rewrite list_lookup_fmap.
  destruct (l !! k) as [c|] eqn:Hk; simpl.
  - rewrite (renumerar_posicao _ _ _ (s + Z.of_nat k)).
    + symmetry. apply lookup_seqZ_lt.
      apply lookup_lt_Some in Hk. lia.
    + by apply ultima_enumerate_NoDup.
    + apply Hl. by eapply list_elem_of_lookup_2.
  - symmetry. apply lookup_seqZ_ge. apply lookup_ge_None in Hk. lia.
Qed.

(** Running the loop a second time writes the same indices again. *)
Lemma renumerar_renumerar h l : renumerar (renumerar h l) l = renumerar h l.
Proof.
  apply map_eq. intros c. rewrite !renumerar_lookup.
  destruct (h !! c); [|done]. by destruct (ultima l c).
Qed.

(** ** [ordenar_recalcular_posicoes] *)

Lemma sort_key_ext {A : Type} (key key' : A → Z) l :
  (∀ x, key x = key' x) → sort_key key l = sort_key key' l.
Proof.
  intros Hk. induction l as [|x l IH]; simpl; [done|]. rewrite IH.
  generalize (sort_key key' l). intros k.
  induction k as [|y k IHk]; simpl; [done|].
  rewrite IHk, !Hk. done.
Qed.

Lemma ordenar_eq st :
  ordenar_recalcular_posicoes st
  = mkEstado (renumerar (heap st) (enumerate 1 (ordenados st)))
             (ordenados st ++ atendidos st).
Proof. done. Qed.

Lemma ordenar_campos st c :
  nome (heap (ordenar_recalcular_posicoes st) !!! c) = nome (heap st !!! c) ∧
  chegada (heap (ordenar_recalcular_posicoes st) !!! c)
    = chegada (heap st !!! c) ∧
  tipo (heap (ordenar_recalcular_posicoes st) !!! c) = tipo (heap st !!! c) ∧
  atendido (heap (ordenar_recalcular_posicoes st) !!! c)
    = atendido (heap st !!! c).
Proof. rewrite ordenar_eq. apply renumerar_campos. Qed.

Lemma ordenar_atendido st c :
  atendido (heap (ordenar_recalcular_posicoes st) !!! c)
  = atendido (heap st !!! c).
Proof. apply ordenar_campos. Qed.

Lemma ordenar_tipo st c :
  tipo (heap (ordenar_recalcular_posicoes st) !!! c) = tipo (heap st !!! c).
Proof. apply ordenar_campos. Qed.

Lemma ordenar_is_Some st c :
  is_Some (heap (ordenar_recalcular_posicoes st) !! c)
  ↔ is_Some (heap st !! c).
Proof. rewrite ordenar_eq. apply renumerar_is_Some. Qed.

Lemma ordenar_fila st :
  fila (ordenar_recalcular_posicoes st) = ordenados st ++ atendidos st.
Proof. done. Qed.

Lemma ordenar_perm st : fila (ordenar_recalcular_posicoes st) ≡ₚ fila st.
Proof.
  rewrite ordenar_fila. unfold ordenados. rewrite sort_chave_perm.
  rewrite Permutation_app_comm.
  apply (filter_app_complement (λ c, atendido (heap st !!! c) : Prop)).
Qed.

Lemma ordenar_elem_of st c :
  c ∈ fila (ordenar_recalcular_posicoes st) ↔ c ∈ fila st.
Proof. by rewrite ordenar_perm. Qed.

Lemma ordenados_elem_of st c :
  c ∈ ordenados st ↔ c ∈ fila st ∧ ¬ atendido (heap st !!! c).
Proof.
  unfold ordenados, nao_atendidos.
  rewrite sort_chave_elem_of, list_elem_of_filter. tauto.
Qed.

Lemma ordenar_nao_atendidos st :
  nao_atendidos (ordenar_recalcular_posicoes st) = ordenados st.
Proof.
  unfold nao_atendidos.
  rewrite (list_filter_iff _ (λ c, ¬ atendido (heap st !!! c)))
    by (intros c; by rewrite ordenar_atendido).
  rewrite ordenar_fila, filter_app. unfold ordenados, atendidos, nao_atendidos.
  rewrite sort_chave_filter, !list_filter_filter.
  rewrite (list_filter_iff (λ c, ¬ atendido (heap st !!! c) ∧ atendido _)
             (λ _, False)) by tauto.
  rewrite filter_never, app_nil_r. f_equal.
  apply list_filter_iff. tauto.
Qed.

Lemma ordenar_atendidos st :
  atendidos (ordenar_recalcular_posicoes st) = atendidos st.
Proof.
  unfold atendidos at 1.
  rewrite (list_filter_iff _ (λ c, atendido (heap st !!! c) : Prop))
    by (intros c; by rewrite ordenar_atendido).
  rewrite ordenar_fila, filter_app. unfold ordenados, atendidos, nao_atendidos.
  rewrite sort_chave_filter, !list_filter_filter.
  rewrite (list_filter_iff (λ c, atendido (heap st !!! c) ∧ ¬ atendido _)
             (λ _, False)) by tauto.
  rewrite filter_never. simpl.
  apply list_filter_iff. tauto.
Qed.

Lemma ordenar_ordenados st :
  ordenados (ordenar_recalcular_posicoes st) = ordenados st.
Proof.
  unfold ordenados at 1. rewrite ordenar_nao_atendidos.
  rewrite (sort_key_ext _ (chave (heap st))).
  - apply sort_chave_idemp.
  - intros c. unfold chave. by rewrite ordenar_tipo.
Qed.

Lemma ordenar_idempotente st :
  ordenar_recalcular_posicoes (ordenar_recalcular_posicoes st)
  = ordenar_recalcular_posicoes st.
Proof.
  rewrite (ordenar_eq (ordenar_recalcular_posicoes st)).
  rewrite ordenar_ordenados, ordenar_atendidos.
  rewrite (ordenar_eq st) at 1. simpl.
  by rewrite renumerar_renumerar.
Qed.

Lemma ordenados_NoDup st : NoDup (fila st) → NoDup (ordenados st).
Proof. intros. apply sort_chave_NoDup. by apply NoDup_filter. Qed.

Lemma ordenar_bem_formado st :
  bem_formado st → bem_formado (ordenar_recalcular_posicoes st).
Proof.
  intros [Hnd Hh]. split.
  - by rewrite ordenar_perm.
  - intros c Hc. apply ordenar_is_Some, Hh. by apply ordenar_elem_of.
Qed.

(** After the routine the unserved objects carry 1, 2, ..., K in list
    order. *)
Lemma ordenar_posicoes st :
  bem_formado st →
  posicoes (ordenar_recalcular_posicoes st)
  = seqZ 1 (Z.of_nat (length (nao_atendidos (ordenar_recalcular_posicoes st)))).
Proof.
  intros [Hnd Hh]. unfold posicoes. rewrite ordenar_nao_atendidos.
  rewrite ordenar_eq. simpl. apply renumerar_enumerate.
  - by apply ordenados_NoDup.
  - intros c Hc. apply Hh. by apply ordenados_elem_of in Hc as [? _].
Qed.

(** ** Lists: filters, sublists and relative order *)

Section ListLemmas.
Context {A : Type}.
Implicit Types l : list A.

Lemma filter_ext_elem (P Q : A → Prop)
    `{!∀ x, Decision (P x), !∀ x, Decision (Q x)} l :
  (∀ x, x ∈ l → P x ↔ Q x) → filter P l = filter Q l.
Proof.
  induction l as [|x l IH]; intros Hext; [done|].
  rewrite !filter_cons, IH by (intros; apply Hext; by right).
  apply decide_ext, Hext. by left.
Qed.

Lemma filter_sublist_mono (P Q : A → Prop)
    `{!∀ x, Decision (P x), !∀ x, Decision (Q x)} l1 l2 :
  l1 `sublist_of` l2 → (∀ x, x ∈ l1 → P x → Q x) →
  filter P l1 `sublist_of` filter Q l2.
Proof.
  induction 1 as [|x l1 l2 _ IH|x l1 l2 _ IH]; intros Himp.
  - done.
  - rewrite !filter_cons.
    assert (filter P l1 `sublist_of` filter Q l2) as Hs
      by (apply IH; intros; apply Himp; [by right|done]).
    destruct (decide (P x)) as [HP|HP].
    + rewrite decide_True by (apply Himp; [by left|done]).
      by apply sublist_skip.
    + destruct (decide (Q x)); [by apply sublist_cons|done].
  - rewrite (filter_cons Q).
    destruct (decide (Q x)); [apply sublist_cons|]; by apply IH.
Qed.

Lemma antes_cons x l a b : antes l a b → antes (x :: l) a b.
Proof. intros (i & j & ? & ? & ?). exists (S i), (S j). auto with lia. Qed.

Lemma antes_elem_of l a b : antes l a b → a ∈ l ∧ b ∈ l.
Proof.
  intros (i & j & ? & ? & ?). split; by eapply list_elem_of_lookup_2.
Qed.

Lemma antes_head x l b : b ∈ l → antes (x :: l) x b.
Proof.
  intros [j Hj]%list_elem_of_lookup_1. exists 0%nat, (S j). auto with lia.
Qed.

Lemma antes_cons_inv x l a b :
  antes (x :: l) a b → (a = x ∧ b ∈ l) ∨ antes l a b.
Proof.
  intros (i & j & Hi & Hj & Hij).
  destruct j as [|j]; [lia|]. simpl in Hj. destruct i as [|i].
  - left. simpl in Hi. split; [congruence|].
    by eapply list_elem_of_lookup_2.
  - right. exists i, j. auto with lia.
Qed.

Lemma sublist_antes l1 l2 a b :
  l1 `sublist_of` l2 → antes l1 a b → antes l2 a b.
Proof.
  induction 1 as [|x l1 l2 Hs IH|x l1 l2 _ IH]; intros Hab.
  - done.
  - apply antes_cons_inv in Hab as [[-> Hb]|Hab].
    + apply antes_head. by eapply elem_of_sublist.
    + by apply antes_cons, IH.
  - by apply antes_cons, IH.
Qed.

Lemma sublist_antes_inv l1 l2 a b :
  l1 `sublist_of` l2 → NoDup l2 → antes l2 a b → a ∈ l1 → b ∈ l1 →
  antes l1 a b.
Proof.
  induction 1 as [|x l1 l2 Hs IH|x l1 l2 Hs IH];
    intros Hnd Hab Ha Hb.
  - by apply elem_of_nil in Ha.
  - apply NoDup_cons in Hnd as [Hx Hnd].
    apply antes_cons_inv in Hab as [[-> Hb2]|Hab].
    + apply antes_head. apply elem_of_cons in Hb as [->|Hb]; [done|done].
    + apply antes_elem_of in Hab as Hel. destruct Hel as [Ha2 Hb2].
      apply elem_of_cons in Ha as [->|Ha]; [done|].
      apply elem_of_cons in Hb as [->|Hb]; [done|].
      by apply antes_cons, IH.
  - apply NoDup_cons in Hnd as [Hx Hnd].
    apply antes_cons_inv in Hab as [[-> Hb2]|Hab].
    + destruct Hx. by eapply elem_of_sublist.
    + by apply IH.
Qed.

Lemma antes_irrefl l a : NoDup l → ¬ antes l a a.
Proof.
  intros Hnd (i & j & Hi & Hj & Hij).
  pose proof (NoDup_lookup _ _ _ _ Hnd Hi Hj). lia.
Qed.
End ListLemmas.

(** ** The invariant of the service *)

Lemma sort_chave_grupo h t l :
  filter (λ c, tipo (h !!! c) = t) (sort_key (chave h) l)
  = filter (λ c, tipo (h !!! c) = t) l.
Proof.
  destruct t.
  - rewrite !(list_filter_iff (λ c, tipo (h !!! c) = Normal)
               (λ c, ¬ prio h c)).
    + apply sort_chave_filter_normal.
    + intros c. unfold prio. destruct (tipo (h !!! c)); naive_solver.
    + intros c. unfold prio. destruct (tipo (h !!! c)); naive_solver.
  - apply sort_chave_filter_prio.
Qed.

Lemma ordenar_intacto st c :
  c ∉ ordenados st → heap (ordenar_recalcular_posicoes st) !! c = heap st !! c.
Proof.
  intros Hc. rewrite ordenar_eq. simpl.
  by rewrite renumerar_intacto by by apply ultima_enumerate_None.
Qed.

Lemma ordenar_intacto_atendido st c :
  atendido (heap st !!! c) →
  heap (ordenar_recalcular_posicoes st) !!! c = heap st !!! c.
Proof.
  intros Hc. rewrite !lookup_total_alt, ordenar_intacto; [done|].
  rewrite ordenados_elem_of. tauto.
Qed.

Lemma ordenar_grupo t st :
  grupo t (ordenar_recalcular_posicoes st) = grupo t st.
Proof.
  unfold grupo. rewrite ordenar_nao_atendidos.
  rewrite (list_filter_iff _ (λ c, tipo (heap st !!! c) = t))
    by (intros c; by rewrite ordenar_tipo).
  apply sort_chave_grupo.
Qed.

Lemma inv_ordenar hist st :
  inv hist st → inv hist (ordenar_recalcular_posicoes st).
Proof.
  intros [Hbf Hs Hnd Hh Hg]. split.
  - by apply ordenar_bem_formado.
  - intros c Hc Ha. rewrite ordenar_atendido in Ha.
    rewrite ordenar_intacto_atendido by done.
    apply Hs; [|done]. by apply ordenar_elem_of.
  - done.
  - intros c Hc. by apply ordenar_is_Some, Hh.
  - intros t. by rewrite ordenar_grupo.
Qed.

Lemma grupo_alt t st :
  grupo t st
  = filter (λ c, tipo (heap st !!! c) = t ∧ ¬ atendido (heap st !!! c))
      (fila st).
Proof. unfold grupo, nao_atendidos. apply list_filter_filter. Qed.

(** Appending a newly allocated, unserved object. *)
Lemma inv_append hist st o :
  let c := fresh (dom (heap st)) in
  atendido o = false →
  inv hist st →
  inv (hist ++ [c]) (mkEstado (<[c := o]> (heap st)) (fila st ++ [c])).
Proof.
  intros c Ho [[Hnd Hh] Hs Hhnd Hhh Hg].
  assert (heap st !! c = None) as Hc
    by apply not_elem_of_dom, is_fresh.
  assert (∀ x, is_Some (heap st !! x) →
            <[c := o]> (heap st) !!! x = heap st !!! x) as Hsame.
  { intros x [y Hx]. apply lookup_total_insert_ne. congruence. }
  split; simpl.
  - split; simpl.
    + apply NoDup_app. split_and!; [done | | apply NoDup_singleton].
      intros x Hx ->%list_elem_of_singleton.
      apply Hh in Hx as [? ?]. congruence.
    + intros x [Hx| ->%list_elem_of_singleton]%elem_of_app.
      * rewrite lookup_insert_ne; [by apply Hh|].
        apply Hh in Hx as [? ?]. congruence.
      * by rewrite lookup_insert_eq.
  - intros x [Hx| ->%list_elem_of_singleton]%elem_of_app.
    + rewrite Hsame by by apply Hh. by apply Hs.
    + rewrite lookup_total_insert_eq, Ho. done.
  - apply NoDup_app. split_and!; [done | | apply NoDup_singleton].
    intros x Hx ->%list_elem_of_singleton.
    apply Hhh in Hx as [? ?]. congruence.
  - intros x [Hx| ->%list_elem_of_singleton]%elem_of_app.
    + rewrite lookup_insert_ne; [by apply Hhh|].
      apply Hhh in Hx as [? ?]. congruence.
    + by rewrite lookup_insert_eq.
  - intros t. rewrite grupo_alt. simpl. rewrite filter_app.
    apply sublist_app; [|apply sublist_filter].
    rewrite (filter_ext_elem _
      (λ x, tipo (heap st !!! x) = t ∧ ¬ atendido (heap st !!! x))).
    + rewrite <- grupo_alt. apply Hg.
    + intros x Hx. by rewrite Hsame by by apply Hh.
Qed.

(** Marking one object served, as [put_fila] does. *)
Lemma servir_lookup c st x :
  heap (servir c st) !! x
  = if decide (c = x)
    then (λ o, set_atendido true (set_posicao 0 o)) <$> heap st !! x
    else heap st !! x.
Proof.
  unfold servir. simpl. rewrite !lookup_alter.
  case_decide; [|done]. subst. rewrite decide_True by done.
  by destruct (heap st !! x).
Qed.

Lemma servir_outro c st x :
  c ≠ x → heap (servir c st) !!! x = heap st !!! x.
Proof.
  intros Hx. by rewrite !lookup_total_alt, servir_lookup, decide_False.
Qed.

Lemma servir_mesmo c st o :
  heap st !! c = Some o →
  heap (servir c st) !!! c = set_atendido true (set_posicao 0 o).
Proof.
  intros Hc. by rewrite lookup_total_alt, servir_lookup, decide_True, Hc.
Qed.

Lemma servir_ausente c st : heap st !! c = None → servir c st = st.
Proof.
  intros Hc. destruct st as [h l]. simpl in Hc.
  unfold servir at 1. simpl. f_equal.
  apply map_eq. intros x.
  pose proof (servir_lookup c (mkEstado h l) x) as Hx. simpl in Hx.
  rewrite Hx. case_decide; [subst; by rewrite Hc|done].
Qed.

Lemma inv_servir hist st c : inv hist st → inv hist (servir c st).
Proof.
  destruct (heap st !! c) as [o|] eqn:Hc;
    [|by rewrite servir_ausente].
  intros [[Hnd Hh] Hs Hhnd Hhh Hg].
  assert (∀ x, is_Some (heap st !! x) → is_Some (heap (servir c st) !! x))
    as Hlive.
  { intros x Hx. rewrite servir_lookup. case_decide; [|done].
    by apply fmap_is_Some. }
  split.
  - split; [done|]. intros x Hx. by apply Hlive, Hh.
  - intros x Hx. destruct (decide (c = x)) as [<-|Hne].
    + by rewrite (servir_mesmo _ _ o).
    + rewrite servir_outro by done. by apply Hs.
  - done.
  - intros x Hx. by apply Hlive, Hhh.
  - intros t. trans (grupo t st); [|apply Hg]. rewrite !grupo_alt.
    apply filter_sublist_mono; [done|].
    intros x _. destruct (decide (c = x)) as [<-|Hne].
    + rewrite (servir_mesmo _ _ o) by done. simpl. tauto.
    + rewrite servir_outro by done. tauto.
Qed.

(** [list.remove] keeps the other items in their order. *)
Lemma list_remove_sublist h x l l' :
  list_remove h x l = Some l' → l' `sublist_of` l.
Proof.
  revert l'. induction l as [|c l IH]; intros l'; simpl; [done|].
  case_decide.
  - intros [= <-]. by apply sublist_cons.
  - destruct (list_remove h x l) as [k|]; [|done].
    intros [= <-]. by apply sublist_skip, IH.
Qed.

Lemma inv_remover hist st x l :
  list_remove (heap st) x (fila st) = Some l →
  inv hist st → inv hist (mkEstado (heap st) l).
Proof.
  intros Hl%list_remove_sublist [[Hnd Hh] Hs Hhnd Hhh Hg].
  split; simpl; try done.
  - split; simpl.
    + by apply (sublist_NoDup _ (fila st)).
    + intros c Hc. apply Hh. by apply (elem_of_sublist l).
  - intros c Hc. apply Hs. by apply (elem_of_sublist l).
  - intros t. trans (grupo t st); [|apply Hg]. rewrite !grupo_alt. simpl.
    by apply filter_sublist_mono.
Qed.

(** ** Every request preserves the invariant *)

#[local] Arguments ordenar_recalcular_posicoes : simpl never.

Lemma get_fila_id_estado id st :
  (get_fila_id id st).1 = ordenar_recalcular_posicoes st.
Proof.
  unfold get_fila_id.
  destruct (encontrar_por_posicao _ id) as [c|]; [|done].
  by destruct (atendido _).
Qed.

Lemma inv_inicial : inv [] inicial.
Proof.
  split; simpl.
  - split; simpl; [constructor|]. by intros c ?%elem_of_nil.
  - by intros c ?%elem_of_nil.
  - constructor.
  - by intros c ?%elem_of_nil.
  - intros t. apply sublist_nil_l.
Qed.

Lemma inv_executar hist st p :
  inv hist st → inv (hist ++ criados p st) (executar p st).
Proof.
  intros Hinv. destruct p as [| |id|novo agora| |id];
    cbn [executar criados]; rewrite ?app_nil_r.
  - done.
  - by apply inv_ordenar.
  - rewrite get_fila_id_estado. by apply inv_ordenar.
  - apply inv_ordenar. by apply inv_append.
  - apply inv_ordenar. apply inv_ordenar in Hinv.
    destruct (encontrar_por_posicao _ 1); [by apply inv_servir|done].
  - apply inv_ordenar in Hinv. unfold delete_fila_id.
    destruct (encontrar_por_posicao _ id) as [c|]; [|done].
    destruct (atendido _); [done|].
    destruct (list_remove _ c _) as [l|] eqn:Hl; [|done].
    cbn [fst]. apply inv_ordenar. by eapply inv_remover.
Qed.

Lemma executar_fixo p st :
  ordenar_recalcular_posicoes st = st →
  ordenar_recalcular_posicoes (executar p st) = executar p st.
Proof.
  intros Hst. destruct p as [| |id|novo agora| |id]; cbn [executar];
    try done; try apply ordenar_idempotente.
  - rewrite get_fila_id_estado. apply ordenar_idempotente.
  - unfold delete_fila_id.
    destruct (encontrar_por_posicao _ id) as [c|];
      [|apply ordenar_idempotente].
    destruct (atendido _); [apply ordenar_idempotente|].
    destruct (list_remove _ c _) as [l|]; apply ordenar_idempotente.
Qed.

Lemma alcancavel_inv hist st :
  alcancavel hist st → inv hist st ∧ ordenar_recalcular_posicoes st = st.
Proof.
  induction 1 as [|hist st p _ [IH1 IH2]].
  - split; [apply inv_inicial|done].
  - split; [by apply inv_executar|by apply executar_fixo].
Qed.

Lemma alcancavel_bem_formado hist st : alcancavel hist st → bem_formado st.
Proof. intros [[] _]%alcancavel_inv. done. Qed.

Lemma alcancavel_fixo hist st :
  alcancavel hist st → ordenar_recalcular_posicoes st = st.
Proof. by intros [_ ?]%alcancavel_inv. Qed.

(** ** Reachable states are numbered *)

Lemma alcancavel_passo_ordenar hist st :
  alcancavel hist st → alcancavel hist (ordenar_recalcular_posicoes st).
Proof.
  intros H. pose proof (alc_passo _ _ GetFila H) as H'.
  simpl in H'. by rewrite app_nil_r in H'.
Qed.

Lemma alcancavel_nao_atendidos hist st :
  alcancavel hist st → nao_atendidos st = ordenados st.
Proof.
  intros Hfix%alcancavel_fixo.
  rewrite <- Hfix at 1. apply ordenar_nao_atendidos.
Qed.

Lemma alcancavel_fila hist st :
  alcancavel hist st → fila st = nao_atendidos st ++ atendidos st.
Proof.
  intros H. rewrite (alcancavel_nao_atendidos _ _ H).
  apply alcancavel_fixo in H. rewrite <- H at 1. apply ordenar_fila.
Qed.

Lemma alcancavel_posicoes hist st :
  alcancavel hist st →
  posicoes st = seqZ 1 (Z.of_nat (length (nao_atendidos st))).
Proof.
  intros H. pose proof (alcancavel_bem_formado _ _ H) as Hbf.
  apply alcancavel_fixo in H. rewrite <- H. by apply ordenar_posicoes.
Qed.

Lemma alcancavel_posicao_indice hist st k c :
  alcancavel hist st → nao_atendidos st !! k = Some c →
  posicao (heap st !!! c) = 1 + Z.of_nat k.
Proof.
  intros H Hk. pose proof (alcancavel_posicoes _ _ H) as Hp.
  apply (f_equal (.!! k)) in Hp.
  unfold posicoes in Hp. rewrite list_lookup_fmap, Hk in Hp. simpl in Hp.
  rewrite lookup_seqZ_lt in Hp by (apply lookup_lt_Some in Hk; lia).
  congruence.
Qed.

Lemma alcancavel_antes hist st a b :
  alcancavel hist st → antes (nao_atendidos st) a b →
  posicao (heap st !!! a) < posicao (heap st !!! b).
Proof.
  intros H (i & j & Hi & Hj & Hij).
  rewrite (alcancavel_posicao_indice _ _ i a), (alcancavel_posicao_indice _ _ j b)
    by done.
  lia.
Qed.

Lemma alcancavel_nao_atendidos_NoDup hist st :
  alcancavel hist st → NoDup (nao_atendidos st).
Proof.
  intros [Hnd _]%alcancavel_bem_formado. by apply NoDup_filter.
Qed.

(** Positions identify unserved objects. *)
Lemma alcancavel_posicao_inj hist st a b :
  alcancavel hist st → a ∈ nao_atendidos st → b ∈ nao_atendidos st →
  posicao (heap st !!! a) = posicao (heap st !!! b) → a = b.
Proof.
  intros H [i Hi]%list_elem_of_lookup_1 [j Hj]%list_elem_of_lookup_1.
  rewrite (alcancavel_posicao_indice _ _ i a), (alcancavel_posicao_indice _ _ j b)
    by done.
  intros Hij. assert (i = j) as -> by lia. congruence.
Qed.

Lemma antes_app {A : Type} (l1 l2 : list A) a b :
  a ∈ l1 → b ∈ l2 → antes (l1 ++ l2) a b.
Proof.
  intros [i Hi]%list_elem_of_lookup_1 [j Hj]%list_elem_of_lookup_1.
  exists i, (length l1 + j)%nat. split_and!.
  - by apply lookup_app_l_Some.
  - by rewrite lookup_app_r, Nat.add_sub' by lia.
  - apply lookup_lt_Some in Hi. lia.
Qed.

(** ** Claims about the numbering *)

(** C1: in every reachable state, right after
    [ordenar_recalcular_posicoes] and after every request (GET, POST, PUT
    and DELETE alike), the positions of the unserved objects, read in list
    order, are 1, 2, ..., K, where K is the number of unserved objects: no
    value is repeated and none is missing. *)
Theorem posicoes_contiguas hist st st' :
  alcancavel hist st →
  st' = ordenar_recalcular_posicoes st ∨ (∃ p, st' = executar p st) →
  let K := Z.of_nat (length (nao_atendidos st')) in
  posicoes st' = seqZ 1 K ∧
  NoDup (posicoes st') ∧
  ∀ p, p ∈ posicoes st' ↔ 1 ≤ p ≤ K.
Proof.
  intros H Hst' K.
  assert (∃ hist', alcancavel hist' st') as [hist' H'].
  { destruct Hst' as [->|[p ->]].
    - exists hist. by apply alcancavel_passo_ordenar.
    - eexists. by apply alc_passo. }
  pose proof (alcancavel_posicoes _ _ H') as Hp. fold K in Hp.
  rewrite Hp. split_and!.
  - done.
  - apply NoDup_seqZ.
  - intros p. rewrite elem_of_seqZ. lia.
Qed.

Lemma posicoes_contiguas_witness :
  posicoes (executar (PostFila (mkClienteIn "Ana" Normal) 10) inicial)
  = seqZ 1 (Z.of_nat (length (nao_atendidos
              (executar (PostFila (mkClienteIn "Ana" Normal) 10) inicial)))).
Proof.
  apply (posicoes_contiguas [] inicial); [apply alc_inicial|].
  right. by eexists.
Defined.

(** C2: in a reachable state after [ordenar_recalcular_posicoes], an
    unserved 'P' object always has a strictly smaller position than an
    unserved 'N' object. *)
Theorem prioritario_antes_de_normal hist st a b :
  alcancavel hist st →
  let st' := ordenar_recalcular_posicoes st in
  a ∈ nao_atendidos st' → b ∈ nao_atendidos st' →
  tipo (heap st' !!! a) = Prioritario → tipo (heap st' !!! b) = Normal →
  posicao (heap st' !!! a) < posicao (heap st' !!! b).
Proof.
  intros H st'. unfold st'. rewrite (alcancavel_fixo _ _ H).
  intros Ha Hb Hta Htb. apply (alcancavel_antes hist); [done|].
  pose proof (alcancavel_nao_atendidos _ _ H) as Hord.
  unfold ordenados in Hord. rewrite sort_chave in Hord.
  rewrite Hord. apply antes_app; apply list_elem_of_filter; split;
    unfold prio; try done.
  by rewrite Htb.
Qed.

Lemma prioritario_antes_de_normal_witness :
  posicao (heap (ordenar_recalcular_posicoes
             (executar (PostFila (mkClienteIn "Bob" Prioritario) 20)
                (executar (PostFila (mkClienteIn "Ana" Normal) 10) inicial)))
           !!! 2%positive)
  < posicao (heap (ordenar_recalcular_posicoes
               (executar (PostFila (mkClienteIn "Bob" Prioritario) 20)
                  (executar (PostFila (mkClienteIn "Ana" Normal) 10) inicial)))
             !!! 1%positive).
Proof.
  apply (prioritario_antes_de_normal
           (([] ++ criados (PostFila (mkClienteIn "Ana" Normal) 10) inicial)
            ++ criados (PostFila (mkClienteIn "Bob" Prioritario) 20)
                 (executar (PostFila (mkClienteIn "Ana" Normal) 10) inicial))).
  - apply alc_passo, alc_passo, alc_inicial.
  - vm_compute. repeat constructor.
  - vm_compute. repeat constructor.
  - vm_compute. reflexivity.
  - vm_compute. reflexivity.
Defined.

(** C3: [hist] records the enqueued objects in the order of their POST.
    For two unserved objects of the same service type, the one enqueued
    earlier has the smaller position after
    [ordenar_recalcular_posicoes]; this holds after any sequence of
    requests, sequences of POSTs in particular. *)
Theorem ordem_de_chegada hist st i j a b :
  alcancavel hist st →
  hist !! i = Some a → hist !! j = Some b → (i < j)%nat →
  let st' := ordenar_recalcular_posicoes st in
  a ∈ nao_atendidos st' → b ∈ nao_atendidos st' →
  tipo (heap st' !!! a) = tipo (heap st' !!! b) →
  posicao (heap st' !!! a) < posicao (heap st' !!! b).
Proof.
  intros H Hi Hj Hij st'. unfold st'. rewrite (alcancavel_fixo _ _ H).
  intros Ha Hb Ht. apply (alcancavel_antes hist); [done|].
  destruct (alcancavel_inv _ _ H) as [[_ _ Hnd _ Hg] _].
  apply (sublist_antes (grupo (tipo (heap st !!! b)) st));
    [apply sublist_filter|].
  apply (sublist_antes_inv _ hist); [apply Hg|done| |
    by apply list_elem_of_filter..].
  by exists i, j.
Qed.

Lemma ordem_de_chegada_witness :
  posicao (heap (ordenar_recalcular_posicoes
             (executar (PostFila (mkClienteIn "Carla" Normal) 20)
                (executar (PostFila (mkClienteIn "Ana" Normal) 10) inicial)))
           !!! 1%positive)
  < posicao (heap (ordenar_recalcular_posicoes
               (executar (PostFila (mkClienteIn "Carla" Normal) 20)
                  (executar (PostFila (mkClienteIn "Ana" Normal) 10) inicial)))
             !!! 2%positive).
Proof.
  apply (ordem_de_chegada
           (([] ++ criados (PostFila (mkClienteIn "Ana" Normal) 10) inicial)
            ++ criados (PostFila (mkClienteIn "Carla" Normal) 20)
                 (executar (PostFila (mkClienteIn "Ana" Normal) 10) inicial))
           _ 0%nat 1%nat).
  - apply alc_passo, alc_passo, alc_inicial.
  - vm_compute. reflexivity.
  - vm_compute. reflexivity.
  - lia.
  - vm_compute. repeat constructor.
  - vm_compute. repeat constructor.
  - vm_compute. reflexivity.
Defined.

(** C4: [ordenar_recalcular_posicoes] is idempotent on every state: a
    second call leaves the list order and every field of every object as
    the first call left them. *)
Theorem ordenar_recalcular_posicoes_idempotente st :
  ordenar_recalcular_posicoes (ordenar_recalcular_posicoes st)
  = ordenar_recalcular_posicoes st.
Proof. apply ordenar_idempotente. Qed.

(** ** Looking a position up *)

Lemma encontrar_em_app h l1 l2 p :
  encontrar_em h (l1 ++ l2) p
  = match encontrar_em h l1 p with
    | Some c => Some c
    | None => encontrar_em h l2 p
    end.
Proof.
  induction l1 as [|x l1 IH]; simpl; [done|]. by case_decide.
Qed.

Lemma encontrar_em_Some h l p c :
  encontrar_em h l p = Some c → c ∈ l ∧ posicao (h !!! c) = p.
Proof.
  induction l as [|x l IH]; simpl; [done|]. case_decide.
  - intros [= <-]. split; [by left|done].
  - intros [? ?]%IH. split; [by right|done].
Qed.

Lemma encontrar_em_None h l p :
  encontrar_em h l p = None ↔ ∀ c, c ∈ l → posicao (h !!! c) ≠ p.
Proof.
  induction l as [|x l IH]; simpl.
  - split; [|done]. by intros _ c ?%elem_of_nil.
  - case_decide as Hx.
    + split; [done|]. intros H. destruct (H x); [by left|done].
    + rewrite IH. split.
      * intros H c [->|Hc]%elem_of_cons; [done|by apply H].
      * intros H c Hc. apply H. by right.
Qed.

(** The scan stops at a head that matches. *)
Lemma encontrar_em_head h c l :
  encontrar_em h (c :: l) (posicao (h !!! c)) = Some c.
Proof. simpl. by rewrite decide_True. Qed.

Section Consulta.
Context (st : Estado) (id : Z).
Let st1 := ordenar_recalcular_posicoes st.

Lemma ordenados_nao_atendido c :
  c ∈ ordenados st → ¬ atendido (heap st1 !!! c).
Proof.
  intros [_ Hc]%ordenados_elem_of. unfold st1.
  by rewrite ordenar_atendido.
Qed.

Lemma atendidos_atendido c :
  c ∈ atendidos st → atendido (heap st1 !!! c).
Proof.
  intros [Hc _]%list_elem_of_filter. unfold st1.
  by rewrite ordenar_atendido.
Qed.

Lemma ocupada_encontrar :
  ocupada_em st1 id ↔ is_Some (encontrar_em (heap st1) (ordenados st) id).
Proof.
  split.
  - intros (c & Hc & Ha & Hp).
    destruct (encontrar_em _ _ id) as [x|] eqn:Hx; [by eexists|].
    destruct (proj1 (encontrar_em_None _ _ _) Hx c); [|done].
    unfold st1 in Hc. rewrite ordenar_fila in Hc.
    apply elem_of_app in Hc as [Hc|Hc]; [done|].
    by apply atendidos_atendido in Hc.
  - intros [c Hc]. pose proof (encontrar_em_Some _ _ _ _ Hc) as [Hin Hp].
    exists c. split_and!; [|by apply ordenados_nao_atendido|done].
    unfold st1. rewrite ordenar_fila. apply elem_of_app. by left.
Qed.

Lemma encontrar_ordenado c :
  encontrar_em (heap st1) (ordenados st) id = Some c →
  encontrar_por_posicao st1 id = Some c ∧ atendido (heap st1 !!! c) = false.
Proof.
  intros Hc. split.
  - unfold encontrar_por_posicao, st1 at 2.
    by rewrite ordenar_fila, encontrar_em_app, Hc.
  - apply encontrar_em_Some in Hc as [Hc _].
    apply ordenados_nao_atendido in Hc. by destruct (atendido _).
Qed.

Lemma encontrar_livre :
  encontrar_em (heap st1) (ordenados st) id = None →
  match encontrar_por_posicao st1 id with
  | Some c => atendido (heap st1 !!! c) = true
  | None => True
  end.
Proof.
  intros Hn. unfold encontrar_por_posicao, st1 at 2.
  rewrite ordenar_fila, encontrar_em_app, Hn.
  destruct (encontrar_em _ (atendidos st) id) as [c|] eqn:Hc; [|done].
  apply encontrar_em_Some in Hc as [Hc _].
  apply atendidos_atendido in Hc. by destruct (atendido _).
Qed.

Lemma get_fila_id_livre :
  ¬ ocupada_em st1 id → (get_fila_id id st).2 = inl (nao_existe id).
Proof.
  rewrite ocupada_encontrar, <- eq_None_not_Some.
  intros Hn%encontrar_livre. unfold get_fila_id. fold st1.
  destruct (encontrar_por_posicao st1 id) as [c|]; [|done].
  by rewrite Hn.
Qed.

Lemma get_fila_id_ocupada :
  ocupada_em st1 id →
  ∃ c, (get_fila_id id st).2 = inr c ∧ c ∈ fila st1 ∧
       ¬ atendido (heap st1 !!! c) ∧ posicao (heap st1 !!! c) = id.
Proof.
  rewrite ocupada_encontrar. intros [c Hc]. exists c.
  destruct (encontrar_ordenado _ Hc) as [Hf Ha].
  unfold get_fila_id. fold st1. rewrite Hf, Ha.
  apply encontrar_em_Some in Hf as [? ?]. split_and!; simpl; auto.
Qed.

Lemma delete_fila_id_livre :
  ¬ ocupada_em st1 id → (delete_fila_id id st).2 = inl (nao_existe id).
Proof.
  rewrite ocupada_encontrar, <- eq_None_not_Some.
  intros Hn%encontrar_livre. unfold delete_fila_id. fold st1.
  destruct (encontrar_por_posicao st1 id) as [c|]; [|done].
  by rewrite Hn.
Qed.
End Consulta.

Lemma list_remove_is_Some h x l : x ∈ l → is_Some (list_remove h x l).
Proof.
  induction 1 as [x l|x y l _ IH]; simpl.
  - rewrite decide_True by by left. by eexists.
  - case_decide; [by eexists|]. by apply fmap_is_Some.
Qed.

Lemma delete_fila_id_ocupada st id :
  ocupada_em (ordenar_recalcular_posicoes st) id →
  (delete_fila_id id st).2 = inr ().
Proof.
  rewrite ocupada_encontrar. intros [c Hc].
  destruct (encontrar_ordenado _ _ _ Hc) as [Hf Ha].
  unfold delete_fila_id. rewrite Hf, Ha.
  apply encontrar_em_Some in Hf as [Hin _].
  by destruct (list_remove_is_Some (heap (ordenar_recalcular_posicoes st))
                 c _ Hin) as [l ->].
Qed.

(** ** Claims about lookups by position *)

(** C6 (as the code has it): for every state and every integer [id],
    GET and DELETE on [/fila/{id}] raise the 404 exactly when, after
    [ordenar_recalcular_posicoes], no unserved object holds position [id];
    they raise nothing else; the detail of the 404 is the text
    "Não existe cliente na posição {id}." with the requested position in
    decimal; and otherwise GET returns an unserved object of the list whose
    position is [id], and DELETE succeeds. *)
Theorem consulta_por_posicao st id :
  let st1 := ordenar_recalcular_posicoes st in
  let erro :=
    HTTP (mkHTTPException 404
            ("Não existe cliente na posição " +:+ str_int id +:+ ".")) in
  ((get_fila_id id st).2 = inl erro ↔ ¬ ocupada_em st1 id) ∧
  ((delete_fila_id id st).2 = inl erro ↔ ¬ ocupada_em st1 id) ∧
  (∀ e, (get_fila_id id st).2 = inl e → e = erro) ∧
  (∀ e, (delete_fila_id id st).2 = inl e → e = erro) ∧
  (ocupada_em st1 id →
   (delete_fila_id id st).2 = inr () ∧
   ∃ c, (get_fila_id id st).2 = inr c ∧ c ∈ fila st1 ∧
        ¬ atendido (heap st1 !!! c) ∧ posicao (heap st1 !!! c) = id).
Proof.
  intros st1 erro.
  destruct (decide (is_Some (encontrar_em (heap st1) (ordenados st) id)))
    as [Hoc|Hoc]; unfold st1 in Hoc; rewrite <- ocupada_encontrar in Hoc;
    fold st1 in Hoc.
  - pose proof (delete_fila_id_ocupada _ _ Hoc) as Hd.
    destruct (get_fila_id_ocupada _ _ Hoc) as (c & Hg & Hc).
    rewrite Hd, Hg. split_and!; try done; try (split; [done|tauto]).
    split; [done|]. by exists c.
  - pose proof (delete_fila_id_livre _ _ Hoc) as Hd.
    pose proof (get_fila_id_livre _ _ Hoc) as Hg.
    rewrite Hd, Hg. split_and!; try done.
    + by intros e [= <-].
    + by intros e [= <-].
Qed.

Lemma consulta_por_posicao_witness :
  (get_fila_id 5 inicial).2
  = inl (HTTP (mkHTTPException 404 "Não existe cliente na posição 5.")).
Proof.
  apply (consulta_por_posicao inicial 5).
  intros (c & Hc & _). vm_compute in Hc. by apply elem_of_nil in Hc.
Defined.

(** The English wording of the message is not what the service sends:
    on the empty queue no unserved object holds position 5, and the detail
    of the 404 is not "No client at position 5.". *)
Lemma mensagem_em_portugues :
  ¬ ocupada_em (ordenar_recalcular_posicoes inicial) 5 ∧
  (get_fila_id 5 inicial).2
  ≠ inl (HTTP (mkHTTPException 404 "No client at position 5.")) ∧
  (delete_fila_id 5 inicial).2
  ≠ inl (HTTP (mkHTTPException 404 "No client at position 5.")).
Proof.
  split_and!.
  - intros (c & Hc & _). vm_compute in Hc. by apply elem_of_nil in Hc.
  - vm_compute. discriminate.
  - vm_compute. discriminate.
Qed.

(** C10: in a reachable state after [ordenar_recalcular_posicoes], every
    served object of the list has position 0 and every unserved one a
    position of at least 1; so a lookup of a position [p >= 1] never
    returns a served object, and GET and DELETE on [/fila/{id}] with
    [id <= 0] raise the 404. *)
Theorem sentinela_dos_atendidos hist st :
  alcancavel hist st →
  let st1 := ordenar_recalcular_posicoes st in
  (∀ c, c ∈ fila st1 → atendido (heap st1 !!! c) →
        posicao (heap st1 !!! c) = 0) ∧
  (∀ c, c ∈ fila st1 → ¬ atendido (heap st1 !!! c) →
        1 ≤ posicao (heap st1 !!! c)) ∧
  (∀ p c, 1 ≤ p → encontrar_por_posicao st1 p = Some c →
          ¬ atendido (heap st1 !!! c)) ∧
  (∀ id, id ≤ 0 →
         (get_fila_id id st).2 = inl (nao_existe id) ∧
         (delete_fila_id id st).2 = inl (nao_existe id) ∧
         ∃ e, nao_existe id = HTTP e ∧ status_code e = 404).
Proof.
  intros H st1.
  destruct (alcancavel_inv _ _ H) as [[_ Hs _ _ _] Hfix].
  assert (∀ c, c ∈ fila st → ¬ atendido (heap st !!! c) →
               1 ≤ posicao (heap st !!! c)) as Hpos.
  { intros c Hc Ha.
    assert (c ∈ nao_atendidos st) as [k Hk]%list_elem_of_lookup_1
      by by apply list_elem_of_filter.
    rewrite (alcancavel_posicao_indice _ _ k c H Hk). lia. }
  assert (∀ id, id ≤ 0 → ¬ ocupada_em st1 id) as Hlivre.
  { intros id Hid (c & Hc & Ha & Hp). unfold st1 in *. rewrite Hfix in *.
    specialize (Hpos c Hc Ha). lia. }
  unfold st1 in *. rewrite Hfix in *. split_and!.
  - done.
  - done.
  - intros p c Hp [Hc Hpc]%encontrar_em_Some Ha.
    specialize (Hs c Hc Ha). lia.
  - intros id Hid. specialize (Hlivre id Hid). rewrite <- Hfix in Hlivre.
    split_and!.
    + by apply get_fila_id_livre.
    + by apply delete_fila_id_livre.
    + by eexists.
Qed.

Lemma sentinela_dos_atendidos_witness :
  (get_fila_id 0
     (executar PutFila
        (executar (PostFila (mkClienteIn "Ana" Normal) 10) inicial))).2
  = inl (nao_existe 0).
Proof.
  pose proof (sentinela_dos_atendidos _ _
    (alc_passo _ _ PutFila
       (alc_passo _ _ (PostFila (mkClienteIn "Ana" Normal) 10) alc_inicial)))
    as W.
  cbv zeta in W. destruct W as (_ & _ & _ & W).
  apply (W 0). lia.
Defined.

(** ** Enqueueing *)

Section Enfileirar.
Context (hist : list obj) (st : Estado) (o : Cliente).
Hypothesis Halc : alcancavel hist st.
Hypothesis Ho : atendido o = false.
Let c := fresh (dom (heap st)).
Let X := mkEstado (<[c := o]> (heap st)) (fila st ++ [c]).

Lemma novo_ausente : heap st !! c = None.
Proof. apply not_elem_of_dom, is_fresh. Qed.

Lemma novo_fora_da_fila : c ∉ fila st.
Proof.
  intros Hc. destruct (alcancavel_bem_formado _ _ Halc) as [_ Hh].
  apply Hh in Hc as [? Hc]. by rewrite novo_ausente in Hc.
Qed.

Lemma novo_heap_fila x : x ∈ fila st → heap X !!! x = heap st !!! x.
Proof.
  intros Hx. apply lookup_total_insert_ne. intros <-.
  by apply novo_fora_da_fila.
Qed.

Lemma novo_heap : heap X !!! c = o.
Proof. apply lookup_total_insert_eq. Qed.

Lemma novo_nao_atendidos : nao_atendidos X = nao_atendidos st ++ [c].
Proof.
  unfold nao_atendidos at 1. simpl fila. rewrite filter_app. f_equal.
  - apply filter_ext_elem. intros x Hx. by rewrite novo_heap_fila.
  - rewrite filter_cons_True; [done|]. rewrite novo_heap, Ho. simpl. auto.
Qed.

Lemma novo_prio :
  filter (prio (heap X)) (nao_atendidos st) = grupo Prioritario st.
Proof.
  apply filter_ext_elem. intros x [_ Hx]%list_elem_of_filter.
  unfold prio. by rewrite novo_heap_fila.
Qed.

(** Where the new object lands among the unserved ones. *)
Lemma novo_indice :
  nao_atendidos (ordenar_recalcular_posicoes X)
    !! (match tipo o with
        | Prioritario => length (grupo Prioritario st)
        | Normal => length (nao_atendidos st)
        end)
  = Some c.
Proof.
  rewrite ordenar_nao_atendidos. unfold ordenados.
  rewrite sort_chave, novo_nao_atendidos, !filter_app, novo_prio.
  destruct (tipo o) eqn:Ht.
  - rewrite (filter_cons_False (prio _)), (filter_cons_True (λ x, ¬ prio _ x))
      by (unfold prio; rewrite novo_heap, Ht; done).
    rewrite app_nil_r, app_assoc.
    assert (length (nao_atendidos st)
            = length (grupo Prioritario st
                      ++ filter (λ x, ¬ prio (heap X) x) (nao_atendidos st)))
      as ->.
    { rewrite <- novo_prio.
      by rewrite (filter_app_complement (prio (heap X)) (nao_atendidos st)). }
    apply list_lookup_middle. done.
  - rewrite (filter_cons_True (prio _)), (filter_cons_False (λ x, ¬ prio _ x))
      by (unfold prio; rewrite novo_heap, Ht; tauto).
    rewrite <- app_assoc. by apply list_lookup_middle.
Qed.

Lemma novo_alcancavel novo agora :
  o = mkCliente 999999 (novo_nome novo) agora (novo_tipo novo) false →
  alcancavel (hist ++ [c]) (ordenar_recalcular_posicoes X).
Proof.
  intros ->. apply (alc_passo _ _ (PostFila novo agora) Halc).
Qed.
End Enfileirar.

(** C5: in a reachable state, POST creates a new object (not in the list
    before) with [atendido = False], the name and type of the request and
    the time read from the clock, appends it after the objects of the list
    and runs [ordenar_recalcular_posicoes]; the object returned is that
    same object, and the position it shows is the recomputed one: its rank
    among the unserved objects, which is one more than the number of
    unserved 'P' objects before the call for a 'P' request and one more
    than the number of all unserved objects for an 'N' request. *)
Theorem post_fila_devolve_posicao hist st novo agora :
  alcancavel hist st →
  let c := (post_fila novo agora st).2 in
  let st' := (post_fila novo agora st).1 in
  let n := match novo_tipo novo with
           | Prioritario => length (grupo Prioritario st)
           | Normal => length (nao_atendidos st)
           end in
  (c ∉ fila st) ∧ heap st !! c = None ∧
  st' = ordenar_recalcular_posicoes
          (mkEstado
             (<[c := (mkCliente 999999 (novo_nome novo) agora
                        (novo_tipo novo) false)]> (heap st))
             (fila st ++ [c])) ∧
  fila st' ≡ₚ fila st ++ [c] ∧
  nao_atendidos st' !! n = Some c ∧
  ver st' c = mkCliente (1 + Z.of_nat n) (novo_nome novo) agora
                (novo_tipo novo) false.
Proof.
  intros H c st' n.
  set (o := mkCliente 999999 (novo_nome novo) agora (novo_tipo novo) false).
  set (X := mkEstado (<[fresh (dom (heap st)) := o]> (heap st))
              (fila st ++ [fresh (dom (heap st))])).
  change c with (fresh (dom (heap st))). clear c.
  change st' with (ordenar_recalcular_posicoes X). clear st'.
  assert (nao_atendidos (ordenar_recalcular_posicoes X) !! n
          = Some (fresh (dom (heap st)))) as Hn
    by by apply (novo_indice hist st o).
  pose proof (novo_alcancavel hist st o H eq_refl novo agora eq_refl) as H'.
  split_and!.
  - by apply (novo_fora_da_fila hist).
  - apply novo_ausente.
  - done.
  - apply ordenar_perm.
  - done.
  - pose proof (alcancavel_posicao_indice _ _ _ _ H' Hn) as Hp.
    destruct (ordenar_campos X (fresh (dom (heap st))))
      as (Hnome & Hcheg & Htipo & Hat).
    pose proof (novo_heap st o) as Hc. fold X in Hc, Hp.
    rewrite Hc in Hnome, Hcheg, Htipo, Hat.
    unfold ver.
    destruct (heap (ordenar_recalcular_posicoes X) !!! _).
    simpl in *. by subst.
Qed.

Lemma post_fila_devolve_posicao_witness :
  ver (post_fila (mkClienteIn "Bob" Prioritario) 20
         (executar (PostFila (mkClienteIn "Ana" Normal) 10) inicial)).1
      (post_fila (mkClienteIn "Bob" Prioritario) 20
         (executar (PostFila (mkClienteIn "Ana" Normal) 10) inicial)).2
  = mkCliente 1 "Bob" 20 Prioritario false.
Proof.
  apply (post_fila_devolve_posicao
           ([] ++ criados (PostFila (mkClienteIn "Ana" Normal) 10) inicial)
           (executar (PostFila (mkClienteIn "Ana" Normal) 10) inicial)
           (mkClienteIn "Bob" Prioritario) 20).
  apply alc_passo, alc_inicial.
Defined.

(** ** What the requests write *)

Lemma ordenar_lookup st c o :
  heap st !! c = Some o →
  ∃ i, heap (ordenar_recalcular_posicoes st) !! c = Some (set_posicao i o).
Proof.
  intros Hc. rewrite ordenar_eq. simpl. rewrite renumerar_lookup, Hc.
  destruct (ultima _ c) as [i|]; simpl.
  - by exists i.
  - exists (posicao o). by destruct o.
Qed.

Lemma servir_lookup_Some c' st c o :
  heap st !! c = Some o →
  ∃ i b, heap (servir c' st) !! c = Some (set_atendido b (set_posicao i o)).
Proof.
  intros Hc. rewrite servir_lookup, Hc. case_decide; simpl.
  - by exists 0, true.
  - exists (posicao o), (atendido o). by destruct o.
Qed.

Lemma put_fila_lookup st c o :
  heap st !! c = Some o →
  ∃ i b, heap (put_fila st).1 !! c = Some (set_atendido b (set_posicao i o)).
Proof.
  intros Hc. unfold put_fila. cbn [fst].
  destruct (ordenar_lookup _ _ _ Hc) as [i1 H1].
  destruct (encontrar_por_posicao _ 1) as [c'|].
  - destruct (servir_lookup_Some c' _ _ _ H1) as (i2 & b & H2).
    destruct (ordenar_lookup _ _ _ H2) as [i3 H3].
    exists i3, b. by rewrite H3.
  - destruct (ordenar_lookup _ _ _ H1) as [i3 H3].
    exists i3, (atendido o). rewrite H3. by destruct o.
Qed.

Lemma mesmos_dados_refl o : mesmos_dados o o.
Proof. done. Qed.

Lemma mesmos_dados_trans o1 o2 o3 :
  mesmos_dados o1 o2 → mesmos_dados o2 o3 → mesmos_dados o1 o3.
Proof. unfold mesmos_dados. intros (-> & -> & ->) (-> & -> & ->). done. Qed.

Lemma ordenar_dados st c o :
  heap st !! c = Some o →
  ∃ o', heap (ordenar_recalcular_posicoes st) !! c = Some o'
        ∧ mesmos_dados o o'.
Proof. intros [i Hi]%ordenar_lookup. by eexists. Qed.

Lemma executar_dados p st c o :
  heap st !! c = Some o →
  ∃ o', heap (executar p st) !! c = Some o' ∧ mesmos_dados o o'.
Proof.
  intros Hc. destruct p as [| |id|novo agora| |id]; cbn [executar].
  - by exists o.
  - by apply ordenar_dados.
  - rewrite get_fila_id_estado. by apply ordenar_dados.
  - apply ordenar_dados. simpl. rewrite lookup_insert_ne; [done|].
    intros Heq. pose proof (is_fresh (dom (heap st))) as Hf.
    rewrite Heq in Hf. apply Hf, elem_of_dom. by eexists.
  - destruct (put_fila_lookup _ _ _ Hc) as (i & b & H'). by eexists.
  - destruct (ordenar_dados _ _ _ Hc) as (o1 & H1 & Hd1).
    unfold delete_fila_id.
    destruct (encontrar_por_posicao _ id) as [x|]; [|by eexists].
    destruct (atendido _); [by eexists|].
    destruct (list_remove _ x _) as [l|]; [|by eexists].
    cbn [fst].
    destruct (ordenar_dados (mkEstado (heap (ordenar_recalcular_posicoes st)) l)
                c o1 H1) as (o2 & H2 & Hd2).
    exists o2. split; [done|]. by eapply mesmos_dados_trans.
Qed.

Lemma executar_todos_dados ps st c o :
  heap st !! c = Some o →
  ∃ o', heap (executar_todos ps st) !! c = Some o' ∧ mesmos_dados o o'.
Proof.
  revert st o. induction ps as [|p ps IH]; intros st o Hc; simpl.
  - by exists o.
  - destruct (executar_dados p _ _ _ Hc) as (o1 & H1 & Hd1).
    destruct (IH _ _ H1) as (o2 & H2 & Hd2).
    exists o2. split; [done|]. by eapply mesmos_dados_trans.
Qed.

(** C9: once an object exists, no sequence of requests changes its name,
    arrival time or service type; [ordenar_recalcular_posicoes] writes at
    most its [posicao], and PUT at most its [posicao] and [atendido]. *)
Theorem dados_imutaveis ps st c o :
  heap st !! c = Some o →
  (∃ o', heap (executar_todos ps st) !! c = Some o' ∧
         nome o' = nome o ∧ chegada o' = chegada o ∧ tipo o' = tipo o) ∧
  (∃ i, heap (ordenar_recalcular_posicoes st) !! c
        = Some (mkCliente i (nome o) (chegada o) (tipo o) (atendido o))) ∧
  (∃ i b, heap (put_fila st).1 !! c
          = Some (mkCliente i (nome o) (chegada o) (tipo o) b)).
Proof.
  intros Hc. split_and!.
  - apply (executar_todos_dados ps) in Hc as (o' & ? & ?). by exists o'.
  - by apply ordenar_lookup.
  - by apply put_fila_lookup.
Qed.

Lemma dados_imutaveis_witness :
  ∃ o', heap (executar_todos
                [PostFila (mkClienteIn "Bob" Prioritario) 20; PutFila;
                 DeleteFilaId 1; GetFila]
                (executar (PostFila (mkClienteIn "Ana" Normal) 10) inicial))
          !! 1%positive = Some o' ∧
        nome o' = "Ana" ∧ chegada o' = 10 ∧ tipo o' = Normal.
Proof.
  apply (dados_imutaveis _ _ 1%positive (mkCliente 1 "Ana" 10 Normal false)).
  vm_compute. reflexivity.
Defined.

(** ** Taking an object out of the unserved part of a numbered list *)

Lemma filter_ne_notin (c : obj) (l : list obj) :
  c ∉ l → filter (λ x, x ≠ c) l = l.
Proof.
  induction l as [|x l IH]; [done|].
  intros [Hx Hl]%not_elem_of_cons.
  rewrite filter_cons_True by done. by rewrite IH.
Qed.

Lemma filter_ne_cons (c : obj) (l : list obj) :
  c ∉ l → filter (λ x, x ≠ c) (c :: l) = l.
Proof.
  intros Hc. rewrite filter_cons_False by (intros H; by apply H).
  by apply filter_ne_notin.
Qed.

Lemma ordenados_filtrado st st' (Q : obj → Prop) `{!∀ x, Decision (Q x)} :
  (∀ x, tipo (heap st' !!! x) = tipo (heap st !!! x)) →
  nao_atendidos st' = filter Q (nao_atendidos st) →
  ordenados st = nao_atendidos st →
  ordenados st' = filter Q (nao_atendidos st).
Proof.
  intros Ht Hn Hord. unfold ordenados at 1. rewrite Hn.
  rewrite (sort_key_ext _ (chave (heap st)))
    by (intros x; unfold chave; by rewrite Ht).
  rewrite <- sort_chave_filter. fold (ordenados st). by rewrite Hord.
Qed.

Lemma servir_tipo c st x :
  tipo (heap (servir c st) !!! x) = tipo (heap st !!! x).
Proof.
  rewrite !lookup_total_alt, servir_lookup.
  case_decide; [|done]. by destruct (heap st !! x).
Qed.

Lemma servir_nao_atendidos c st :
  is_Some (heap st !! c) →
  nao_atendidos (servir c st) = filter (λ x, x ≠ c) (nao_atendidos st).
Proof.
  intros [o Ho]. unfold nao_atendidos. rewrite list_filter_filter.
  apply list_filter_iff. intros x.
  destruct (decide (c = x)) as [<-|Hne].
  - rewrite (servir_mesmo _ _ o) by done. simpl. intuition.
  - rewrite servir_outro by done. intuition congruence.
Qed.

Section Avancar.
Context (hist : list obj) (st : Estado) (c : obj) (resto : list obj).
Hypothesis Halc : alcancavel hist st.
Hypothesis Hna : nao_atendidos st = c :: resto.

Lemma primeiro_vivo : is_Some (heap st !! c).
Proof.
  destruct (alcancavel_bem_formado _ _ Halc) as [_ Hh]. apply Hh.
  assert (c ∈ nao_atendidos st) as [_ ?]%list_elem_of_filter; [|done].
  rewrite Hna. by left.
Qed.

Lemma primeiro_posicao : posicao (heap st !!! c) = 1.
Proof.
  rewrite (alcancavel_posicao_indice hist st 0 c); [done..|].
  by rewrite Hna.
Qed.

Lemma primeiro_encontrado : encontrar_por_posicao st 1 = Some c.
Proof.
  unfold encontrar_por_posicao.
  rewrite (alcancavel_fila _ _ Halc), Hna. simpl.
  by rewrite decide_True by apply primeiro_posicao.
Qed.

Lemma resto_sem_primeiro : c ∉ resto.
Proof.
  pose proof (alcancavel_nao_atendidos_NoDup _ _ Halc) as Hnd.
  rewrite Hna in Hnd. by apply NoDup_cons in Hnd as [? _].
Qed.

Lemma servir_ordenados : ordenados (servir c st) = resto.
Proof.
  rewrite (ordenados_filtrado st _ (λ x, x ≠ c)).
  - rewrite Hna. apply filter_ne_cons, resto_sem_primeiro.
  - apply servir_tipo.
  - apply servir_nao_atendidos, primeiro_vivo.
  - symmetry. by eapply alcancavel_nao_atendidos.
Qed.

Lemma put_fila_estado :
  put_fila st
  = (ordenar_recalcular_posicoes (servir c st), resto).
Proof.
  unfold put_fila. rewrite (alcancavel_fixo _ _ Halc), primeiro_encontrado.
  by rewrite ordenar_nao_atendidos, servir_ordenados.
Qed.
End Avancar.

Lemma put_fila_vazia hist st :
  alcancavel hist st → nao_atendidos st = [] → put_fila st = (st, []).
Proof.
  intros H Hna. unfold put_fila.
  destruct (alcancavel_inv _ _ H) as [[_ Hs _ _ _] Hfix].
  rewrite Hfix.
  assert (encontrar_por_posicao st 1 = None) as ->.
  { apply encontrar_em_None. intros x Hx.
    assert (atendido (heap st !!! x)) as Ha.
    { destruct (atendido (heap st !!! x)) eqn:Hax; [done|].
      assert (x ∈ nao_atendidos st) as Hin.
      { apply list_elem_of_filter. rewrite Hax. simpl. auto. }
      rewrite Hna in Hin. by apply elem_of_nil in Hin. }
    by rewrite (Hs x Hx Ha). }
  by rewrite Hfix, Hna.
Qed.

(** C7: in a reachable state, PUT marks served the unserved object that
    holds position 1 after [ordenar_recalcular_posicoes] (it gets
    [atendido = True] and [posicao = 0], its other fields stay), changes
    the [atendido] flag of no other object, keeps every object in the
    list, and returns the other unserved objects in their order,
    renumbered from 1; when no object is unserved it leaves the state as
    it is and returns the empty list. *)
Theorem put_fila_avanca hist st :
  alcancavel hist st →
  let st1 := ordenar_recalcular_posicoes st in
  match nao_atendidos st1 with
  | [] => put_fila st = (st, [])
  | c :: resto =>
      posicao (heap st1 !!! c) = 1 ∧
      (put_fila st).2 = resto ∧
      let st' := (put_fila st).1 in
      ver st' c = set_atendido true (set_posicao 0 (ver st1 c)) ∧
      nao_atendidos st' = resto ∧
      posicoes st' = seqZ 1 (Z.of_nat (length resto)) ∧
      fila st' ≡ₚ fila st1 ∧
      ∀ x, x ≠ c → atendido (heap st' !!! x) = atendido (heap st1 !!! x)
  end.
Proof.
  intros H st1. unfold st1. rewrite (alcancavel_fixo _ _ H).
  destruct (nao_atendidos st) as [|c resto] eqn:Hna.
  - by apply put_fila_vazia with hist.
  - pose proof (alc_passo _ _ PutFila H) as H'.
    cbn [executar criados] in H'. rewrite app_nil_r in H'.
    rewrite (put_fila_estado hist st c resto H Hna) in *. cbn [fst snd] in *.
    destruct (primeiro_vivo hist st c resto H Hna) as [o Ho].
    assert (nao_atendidos (ordenar_recalcular_posicoes (servir c st)) = resto)
      as Hresto
      by (rewrite ordenar_nao_atendidos; by apply (servir_ordenados hist)).
    split_and!.
    + by apply (primeiro_posicao hist st c resto).
    + done.
    + unfold ver. rewrite ordenar_intacto_atendido.
      * rewrite (servir_mesmo _ _ o), (lookup_total_correct _ _ _ Ho); done.
      * by rewrite (servir_mesmo _ _ o).
    + done.
    + rewrite (alcancavel_posicoes _ _ H'). by rewrite Hresto.
    + exact (ordenar_perm (servir c st)).
    + intros x Hx. by rewrite ordenar_atendido, servir_outro.
Qed.

Lemma put_fila_avanca_witness :
  ∃ c resto,
    nao_atendidos
      (ordenar_recalcular_posicoes
         (executar (PostFila (mkClienteIn "Ana" Normal) 10) inicial))
    = c :: resto ∧
    (put_fila (executar (PostFila (mkClienteIn "Ana" Normal) 10) inicial)).2
    = resto.
Proof.
  pose proof (put_fila_avanca _ _ (alc_passo _ _
    (PostFila (mkClienteIn "Ana" Normal) 10) alc_inicial)) as W.
  simpl in W.
  destruct (nao_atendidos _) as [|c resto] eqn:E in W.
  - vm_compute in E. discriminate E.
  - exists c, resto. split; [exact E|]. apply W.
Defined.

(** ** Removing by position *)

Lemma list_remove_unico h c l :
  NoDup l → c ∈ l → (∀ x, x ∈ l → h !!! x = h !!! c → x = c) →
  list_remove h c l = Some (filter (λ x, x ≠ c) l).
Proof.
  induction l as [|x l IH]; intros Hnd Hc Hun; [by apply elem_of_nil in Hc|].
  apply NoDup_cons in Hnd as [Hx Hnd]. simpl.
  destruct (decide (x = c ∨ h !!! x = h !!! c)) as [Heq|Hne].
  - assert (x = c) as -> by (destruct Heq; [done|apply Hun; [by left|done]]).
    by rewrite filter_ne_cons.
  - assert (x ≠ c) as Hxc by tauto.
    apply elem_of_cons in Hc as [->|Hc]; [done|].
    rewrite IH; [|done..|]; simpl.
    + by rewrite filter_cons_True.
    + intros y Hy. apply Hun. by right.
Qed.

Lemma criados_novos p st x : x ∈ criados p st → heap st !! x = None.
Proof.
  destruct p; simpl; try by intros ?%elem_of_nil.
  intros ->%list_elem_of_singleton. apply not_elem_of_dom, is_fresh.
Qed.

Lemma executar_fila p st x :
  x ∈ fila (executar p st) → x ∈ fila st ∨ x ∈ criados p st.
Proof.
  destruct p as [| |id|novo agora| |id]; cbn [executar criados].
  - by left.
  - cbv beta zeta iota delta [get_fila fst].
    rewrite ordenar_elem_of. by left.
  - rewrite get_fila_id_estado, ordenar_elem_of. by left.
  - cbv beta zeta iota delta [post_fila fst snd].
    rewrite ordenar_elem_of. simpl. rewrite elem_of_app. tauto.
  - cbv beta zeta iota delta [put_fila fst]. rewrite ordenar_elem_of.
    destruct (encontrar_por_posicao _ 1); cbn [servir fila];
      rewrite ordenar_elem_of; by left.
  - unfold delete_fila_id.
    destruct (encontrar_por_posicao _ id) as [c|];
      [|cbn [fst]; rewrite ordenar_elem_of; by left].
    destruct (atendido _); [cbn [fst]; rewrite ordenar_elem_of; by left|].
    destruct (list_remove _ c _) as [l|] eqn:Hl;
      [|cbn [fst]; rewrite ordenar_elem_of; by left].
    cbn [fst]. rewrite ordenar_elem_of. cbn [fila]. intros Hx. left.
    apply ordenar_elem_of. apply list_remove_sublist in Hl.
    by apply (elem_of_sublist l).
Qed.

(** An object that left the list never comes back. *)
Lemma executar_todos_fora ps st c :
  is_Some (heap st !! c) → c ∉ fila st → c ∉ fila (executar_todos ps st).
Proof.
  revert st. induction ps as [|p ps IH]; intros st [o Ho] Hc; simpl; [done|].
  apply IH.
  - destruct (executar_dados p _ _ _ Ho) as (o' & Ho' & _). by eexists.
  - intros [Hin|Hin]%executar_fila; [done|].
    apply criados_novos in Hin. congruence.
Qed.

Lemma get_fila_id_inr id st c :
  (get_fila_id id st).2 = inr c → c ∈ fila st.
Proof.
  unfold get_fila_id.
  destruct (encontrar_por_posicao _ id) as [x|] eqn:Hx; [|done].
  destruct (atendido _); [done|]. intros [= <-].
  unfold encontrar_por_posicao in Hx.
  apply encontrar_em_Some in Hx as [Hx _]. by rewrite ordenar_elem_of in Hx.
Qed.

Section Remover.
Context (hist : list obj) (st : Estado) (c : obj).
Hypothesis Halc : alcancavel hist st.
Hypothesis Hc : c ∈ fila st.
Hypothesis Ha : ¬ atendido (heap st !!! c).
Let Zs := mkEstado (heap st) (filter (λ x, x ≠ c) (fila st)).

Lemma alvo_nao_atendido : c ∈ nao_atendidos st.
Proof. by apply list_elem_of_filter. Qed.

Lemma alvo_encontrado :
  encontrar_por_posicao st (posicao (heap st !!! c)) = Some c.
Proof.
  assert (ocupada_em (ordenar_recalcular_posicoes st)
            (posicao (heap st !!! c))) as Hoc.
  { rewrite (alcancavel_fixo _ _ Halc). by exists c. }
  apply ocupada_encontrar in Hoc as [c' Hc'].
  destruct (encontrar_ordenado _ _ _ Hc') as [Hf _].
  apply encontrar_em_Some in Hc' as [Hin Hp].
  rewrite (alcancavel_fixo _ _ Halc) in Hf, Hp.
  rewrite <- (alcancavel_nao_atendidos _ _ Halc) in Hin.
  rewrite Hf. f_equal.
  apply (alcancavel_posicao_inj hist st); [done|done| |done].
  apply alvo_nao_atendido.
Qed.

Lemma alvo_unico x : x ∈ fila st → heap st !!! x = heap st !!! c → x = c.
Proof.
  intros Hx Heq.
  apply (alcancavel_posicao_inj hist st);
    [done| |apply alvo_nao_atendido|by rewrite Heq].
  apply list_elem_of_filter. by rewrite Heq.
Qed.

Lemma alvo_removido :
  list_remove (heap st) c (fila st) = Some (fila Zs).
Proof.
  apply list_remove_unico; [|done|apply alvo_unico].
  by destruct (alcancavel_bem_formado _ _ Halc).
Qed.

Lemma removido_nao_atendidos :
  nao_atendidos Zs = filter (λ x, x ≠ c) (nao_atendidos st).
Proof.
  unfold nao_atendidos. simpl. rewrite !list_filter_filter.
  apply list_filter_iff. tauto.
Qed.

Lemma removido_atendidos :
  atendidos Zs = filter (λ x, x ≠ c) (atendidos st).
Proof.
  unfold atendidos. simpl. rewrite !list_filter_filter.
  apply list_filter_iff. tauto.
Qed.

Lemma removido_ordenados :
  ordenados Zs = filter (λ x, x ≠ c) (nao_atendidos st).
Proof.
  apply ordenados_filtrado; [done|apply removido_nao_atendidos|].
  symmetry. by eapply alcancavel_nao_atendidos.
Qed.

Lemma removido_fila :
  fila (ordenar_recalcular_posicoes Zs) = filter (λ x, x ≠ c) (fila st).
Proof.
  rewrite ordenar_fila, removido_ordenados, removido_atendidos.
  by rewrite <- filter_app, <- (alcancavel_fila _ _ Halc).
Qed.

Lemma delete_fila_id_estado :
  delete_fila_id (posicao (heap st !!! c)) st
  = (ordenar_recalcular_posicoes Zs, inr ()).
Proof.
  unfold delete_fila_id.
  rewrite (alcancavel_fixo _ _ Halc), alvo_encontrado.
  assert (atendido (heap st !!! c) = false) as ->
    by (apply negb_true_iff, Is_true_true, negb_prop_intro, Ha).
  by rewrite alvo_removido.
Qed.
End Remover.

(** C8: in a reachable state, when an unserved object [c] holds position
    [id] after [ordenar_recalcular_posicoes], DELETE on [/fila/{id}]
    succeeds and takes exactly [c] out of the list: the list keeps every
    other object, served ones included, in the same order, with the same
    name, time, type and [atendido] flag; the unserved ones are renumbered
    1..K; and [c] is in the list after no later sequence of requests, so no
    later GET returns it. *)
Theorem delete_fila_id_remove hist st id c :
  alcancavel hist st →
  let st1 := ordenar_recalcular_posicoes st in
  c ∈ fila st1 → ¬ atendido (heap st1 !!! c) →
  posicao (heap st1 !!! c) = id →
  (delete_fila_id id st).2 = inr () ∧
  let st' := (delete_fila_id id st).1 in
  fila st' = filter (λ x, x ≠ c) (fila st1) ∧
  (c ∉ fila st') ∧
  (∀ x, x ≠ c → x ∈ fila st' ↔ x ∈ fila st1) ∧
  (∀ x, atendido (heap st' !!! x) = atendido (heap st1 !!! x) ∧
        nome (heap st' !!! x) = nome (heap st1 !!! x) ∧
        chegada (heap st' !!! x) = chegada (heap st1 !!! x) ∧
        tipo (heap st' !!! x) = tipo (heap st1 !!! x)) ∧
  nao_atendidos st' = filter (λ x, x ≠ c) (nao_atendidos st1) ∧
  posicoes st' = seqZ 1 (Z.of_nat (length (nao_atendidos st'))) ∧
  ∀ ps, (c ∉ fila (executar_todos ps st')) ∧
        (c ∉ (get_fila (executar_todos ps st')).2) ∧
        ∀ id', (get_fila_id id' (executar_todos ps st')).2 ≠ inr c.
Proof.
  intros H st1. unfold st1. rewrite (alcancavel_fixo _ _ H).
  intros Hc Ha <-.
  pose proof (alc_passo _ _ (DeleteFilaId (posicao (heap st !!! c))) H) as H'.
  cbn [executar criados] in H'. rewrite app_nil_r in H'.
  rewrite (delete_fila_id_estado hist st c H Hc Ha) in *.
  cbn [fst snd] in *.
  set (Zs := mkEstado (heap st) (filter (λ x, x ≠ c) (fila st))) in *.
  assert (fila (ordenar_recalcular_posicoes Zs)
          = filter (λ x, x ≠ c) (fila st)) as Hfila
    by by apply (removido_fila hist).
  assert (c ∉ fila (ordenar_recalcular_posicoes Zs)) as Hfora.
  { rewrite Hfila. intros [Hne _]%list_elem_of_filter. by apply Hne. }
  assert (is_Some (heap (ordenar_recalcular_posicoes Zs) !! c)) as Hvivo.
  { apply ordenar_is_Some. simpl.
    destruct (alcancavel_bem_formado _ _ H) as [_ Hh]. by apply Hh. }
  split_and!.
  - done.
  - done.
  - done.
  - intros x Hx. rewrite Hfila, list_elem_of_filter. tauto.
  - intros x. destruct (ordenar_campos Zs x) as (? & ? & ? & ?).
    by split_and!.
  - rewrite ordenar_nao_atendidos. by apply (removido_ordenados hist).
  - by apply (alcancavel_posicoes hist).
  - intros ps.
    pose proof (executar_todos_fora ps _ c Hvivo Hfora) as Hps.
    split_and!.
    + done.
    + unfold get_fila. cbn [snd].
      intros [_ Hin]%list_elem_of_filter.
      by rewrite ordenar_elem_of in Hin.
    + intros id' Hin%get_fila_id_inr. done.
Qed.

Lemma delete_fila_id_remove_witness :
  (delete_fila_id 1
     (executar (PostFila (mkClienteIn "Ana" Normal) 10) inicial)).2
  = inr ().
Proof.
  apply (delete_fila_id_remove
           ([] ++ criados (PostFila (mkClienteIn "Ana" Normal) 10) inicial)
           (executar (PostFila (mkClienteIn "Ana" Normal) 10) inicial)
           1 1%positive).
  - apply alc_passo, alc_inicial.
  - vm_compute. apply list_elem_of_here.
  - vm_compute. exact (λ H, H).
  - vm_compute. reflexivity.
Defined.

(** * Further properties of the handlers *)

#[local] Arguments ordenar_recalcular_posicoes : simpl never.

Lemma alcancavel_todos hist st ps :
  alcancavel hist st → ∃ hist', alcancavel hist' (executar_todos ps st).
Proof.
  revert hist st. induction ps as [|p ps IH]; intros hist st H; simpl.
  - by exists hist.
  - apply (IH (hist ++ criados p st)). by apply alc_passo.
Qed.

Lemma nao_atendido_false (st : Estado) c :
  ¬ atendido (heap st !!! c) → atendido (heap st !!! c) = false.
Proof. by destruct (atendido _); simpl; intuition. Qed.

(** The two outcomes of a DELETE in a reachable state. *)
Lemma delete_casos hist st id :
  alcancavel hist st →
  (¬ ocupada_em st id ∧ delete_fila_id id st = (st, inl (nao_existe id))) ∨
  (∃ c, c ∈ fila st ∧ ¬ atendido (heap st !!! c) ∧
        posicao (heap st !!! c) = id ∧
        delete_fila_id id st
        = (ordenar_recalcular_posicoes
             (mkEstado (heap st) (filter (λ x, x ≠ c) (fila st))), inr ())).
Proof.
  intros H. pose proof (alcancavel_fixo _ _ H) as Hfix.
  destruct (decide (is_Some (encontrar_em
              (heap (ordenar_recalcular_posicoes st)) (ordenados st) id)))
    as [Hoc|Hoc]; rewrite <- ocupada_encontrar, Hfix in Hoc.
  - right. destruct Hoc as (c & Hc & Ha & Hp). exists c.
    split_and!; try done. subst id.
    by apply (delete_fila_id_estado hist).
  - left. split; [done|].
    assert (¬ ocupada_em (ordenar_recalcular_posicoes st) id) as Hoc'
      by by rewrite Hfix.
    rewrite ocupada_encontrar, <- eq_None_not_Some in Hoc'.
    apply encontrar_livre in Hoc'. unfold delete_fila_id.
    rewrite Hfix in *.
    destruct (encontrar_por_posicao st id) as [c|]; [|done].
    by rewrite Hoc'.
Qed.

Lemma alcancavel_ocupada hist st id :
  alcancavel hist st →
  ocupada_em st id ↔ 1 ≤ id ≤ Z.of_nat (length (nao_atendidos st)).
Proof.
  intros H. split.
  - intros (c & Hc & Ha & Hp).
    assert (c ∈ nao_atendidos st) as [k Hk]%list_elem_of_lookup_1
      by by apply list_elem_of_filter.
    rewrite (alcancavel_posicao_indice _ _ k c H Hk) in Hp.
    apply lookup_lt_Some in Hk. lia.
  - intros Hid.
    destruct (lookup_lt_is_Some_2 (nao_atendidos st) (Z.to_nat (id - 1)))
      as [c Hk]; [lia|].
    exists c. pose proof (alcancavel_posicao_indice _ _ _ c H Hk) as Hp.
    apply list_elem_of_lookup_2, list_elem_of_filter in Hk as [Ha Hc].
    split_and!; [done..|lia].
Qed.

Lemma alcancavel_ocupada_casos hist st id :
  alcancavel hist st → ocupada_em st id ∨ ¬ ocupada_em st id.
Proof.
  intros H. rewrite (alcancavel_ocupada _ _ id H).
  destruct (decide (1 ≤ id ≤ Z.of_nat (length (nao_atendidos st)))); tauto.
Qed.

(** X1: for every state, GET /fila runs the routine and lists the
    unserved objects of the list, no served one: first the 'P' objects in
    the order they had in the list, then the 'N' objects in theirs; each
    listed object is in the list and shows [atendido = False]. *)
Theorem get_fila_lista st :
  (get_fila st).1 = ordenar_recalcular_posicoes st ∧
  (get_fila st).2 = grupo Prioritario st ++ grupo Normal st ∧
  (get_fila st).2 ≡ₚ nao_atendidos st ∧
  ∀ c, c ∈ (get_fila st).2 ↔
       c ∈ fila st ∧ atendido (ver (get_fila st).1 c) = false.
Proof.
  unfold get_fila. cbn [fst snd]. rewrite ordenar_nao_atendidos.
  split_and!.
  - done.
  - unfold ordenados. rewrite sort_chave. f_equal.
    apply list_filter_iff. intros c. unfold prio.
    destruct (tipo (heap st !!! c)); naive_solver.
  - apply sort_chave_perm.
  - intros c. unfold ver. rewrite ordenar_atendido, ordenados_elem_of.
    destruct (atendido (heap st !!! c)); simpl; intuition congruence.
Qed.

(** X2: in a reachable state the reading requests change nothing: GET /,
    GET /fila and GET /fila/{id} leave the state as it is, and so does a
    DELETE that is answered with an exception. *)
Theorem leituras_nao_mudam hist st :
  alcancavel hist st →
  executar GetRaiz st = st ∧
  (get_fila st).1 = st ∧
  (∀ id, (get_fila_id id st).1 = st) ∧
  (∀ id e, (delete_fila_id id st).2 = inl e → (delete_fila_id id st).1 = st).
Proof.
  intros H. pose proof (alcancavel_fixo _ _ H) as Hfix. split_and!.
  - done.
  - done.
  - intros id. by rewrite get_fila_id_estado.
  - intros id e.
    destruct (delete_casos _ _ id H) as [[_ ->]|(c & _ & _ & _ & ->)]; done.
Qed.

Lemma leituras_nao_mudam_witness :
  (get_fila_id 7
     (executar (PostFila (mkClienteIn "Ana" Normal) 10) inicial)).1
  = executar (PostFila (mkClienteIn "Ana" Normal) 10) inicial.
Proof.
  apply (leituras_nao_mudam
           ([] ++ criados (PostFila (mkClienteIn "Ana" Normal) 10) inicial)).
  apply alc_passo, alc_inicial.
Defined.

(** X3: in a reachable state GET /fila/{id} and GET /fila agree: the
    lookup returns object [c] exactly when [id >= 1] and [c] is the
    [id]-th element of the listing. *)
Theorem get_fila_id_indice hist st id c :
  alcancavel hist st →
  (get_fila_id id st).2 = inr c ↔
  1 ≤ id ∧ (get_fila st).2 !! Z.to_nat (id - 1) = Some c.
Proof.
  intros H. pose proof (alcancavel_fixo _ _ H) as Hfix.
  unfold get_fila. cbn [snd]. rewrite Hfix.
  destruct (alcancavel_ocupada_casos _ _ id H) as [Hoc|Hoc].
  - assert (ocupada_em (ordenar_recalcular_posicoes st) id) as Hoc'
      by by rewrite Hfix.
    destruct (get_fila_id_ocupada _ _ Hoc') as (c' & -> & Hc' & Ha' & Hp').
    rewrite Hfix in Hc', Ha', Hp'.
    assert (c' ∈ nao_atendidos st) as Hin by by apply list_elem_of_filter.
    destruct (list_elem_of_lookup_1 _ _ Hin) as [k Hk].
    pose proof (alcancavel_posicao_indice _ _ _ _ H Hk) as Hpk.
    assert (Z.to_nat (id - 1) = k) as -> by lia.
    split.
    + intros [= <-]. split; [lia|done].
    + intros [_ Hk']. congruence.
  - assert (¬ ocupada_em (ordenar_recalcular_posicoes st) id) as Hoc'
      by by rewrite Hfix.
    rewrite (get_fila_id_livre _ _ Hoc'). split; [done|].
    intros [Hid Hk]. destruct Hoc.
    apply (alcancavel_ocupada hist); [done|].
    apply lookup_lt_Some in Hk. lia.
Qed.

Lemma get_fila_id_indice_witness :
  (get_fila_id 1
     (executar (PostFila (mkClienteIn "Ana" Normal) 10) inicial)).2
  = inr 1%positive.
Proof.
  apply (get_fila_id_indice
           ([] ++ criados (PostFila (mkClienteIn "Ana" Normal) 10) inicial)).
  - apply alc_passo, alc_inicial.
  - split; [lia|]. vm_compute. reflexivity.
Defined.

(** X4: in a reachable state with K unserved objects, GET and DELETE on
    [/fila/{id}] raise the 404 exactly when [id < 1] or [id > K]. *)
Theorem nao_existe_fora_de_1_K hist st id :
  alcancavel hist st →
  let K := Z.of_nat (length (nao_atendidos st)) in
  ((get_fila_id id st).2 = inl (nao_existe id) ↔ id < 1 ∨ K < id) ∧
  ((delete_fila_id id st).2 = inl (nao_existe id) ↔ id < 1 ∨ K < id).
Proof.
  intros H K. pose proof (alcancavel_ocupada _ _ id H) as Hoc. fold K in Hoc.
  pose proof (alcancavel_fixo _ _ H) as Hfix.
  destruct (alcancavel_ocupada_casos _ _ id H) as [Hd|Hd].
  - assert (ocupada_em (ordenar_recalcular_posicoes st) id) as Hoc'
      by by rewrite Hfix.
    destruct (get_fila_id_ocupada _ _ Hoc') as (c' & -> & _).
    rewrite (delete_fila_id_ocupada _ _ Hoc').
    apply Hoc in Hd. split; (split; [done|lia]).
  - assert (¬ ocupada_em (ordenar_recalcular_posicoes st) id) as Hoc'
      by by rewrite Hfix.
    rewrite (get_fila_id_livre _ _ Hoc'), (delete_fila_id_livre _ _ Hoc').
    assert (id < 1 ∨ K < id) by (rewrite Hoc in Hd; lia).
    by split.
Qed.

Lemma nao_existe_fora_de_1_K_witness :
  (get_fila_id 2
     (executar (PostFila (mkClienteIn "Ana" Normal) 10) inicial)).2
  = inl (nao_existe 2).
Proof.
  apply (nao_existe_fora_de_1_K
           ([] ++ criados (PostFila (mkClienteIn "Ana" Normal) 10) inicial)).
  - apply alc_passo, alc_inicial.
  - right. vm_compute. reflexivity.
Defined.

Lemma encontrar_em_primeiro h l p c :
  encontrar_em h l p = Some c →
  ∃ l1 l2, l = l1 ++ c :: l2 ∧ Forall (λ x, posicao (h !!! x) ≠ p) l1.
Proof.
  induction l as [|x l IH]; simpl; [done|]. case_decide as Hx.
  - intros [= <-]. by exists [], l.
  - intros (l1 & l2 & -> & Hl1)%IH. exists (x :: l1), l2.
    split; [done|]. by constructor.
Qed.

(** X5: for every state, [encontrar_por_posicao] returns the first
    object of the list whose [posicao] is the one asked for (no object
    before it has that position), and [None] exactly when no object of the
    list has it. *)
Theorem encontrar_por_posicao_primeiro st p :
  match encontrar_por_posicao st p with
  | Some c =>
      posicao (heap st !!! c) = p ∧
      ∃ l1 l2, fila st = l1 ++ c :: l2 ∧
               Forall (λ x, posicao (heap st !!! x) ≠ p) l1
  | None => Forall (λ x, posicao (heap st !!! x) ≠ p) (fila st)
  end.
Proof.
  unfold encontrar_por_posicao.
  destruct (encontrar_em _ _ p) as [c|] eqn:Hc.
  - split; [by apply encontrar_em_Some in Hc as [_ ?]|].
    by apply encontrar_em_primeiro.
  - apply Forall_forall. by apply encontrar_em_None.
Qed.

Lemma filter_ne_delete (l : list obj) k c :
  NoDup l → l !! k = Some c → filter (λ x, x ≠ c) l = delete k l.
Proof.
  revert k. induction l as [|x l IH]; intros k Hnd Hk; [done|].
  apply NoDup_cons in Hnd as [Hx Hnd]. destruct k as [|k]; simpl in *.
  - injection Hk as ->. by apply filter_ne_cons.
  - rewrite filter_cons_True.
    + f_equal. by apply IH.
    + intros ->. by apply list_elem_of_lookup_2 in Hk.
Qed.

(** X6: in a reachable state PUT moves every object it returns one
    position down, and returns one object fewer than were unserved (none
    when none was). *)
Theorem put_fila_decrementa hist st :
  alcancavel hist st →
  length (put_fila st).2 = (length (nao_atendidos st) - 1)%nat ∧
  ∀ x, x ∈ (put_fila st).2 →
       x ∈ nao_atendidos st ∧
       posicao (ver (put_fila st).1 x) = posicao (ver st x) - 1.
Proof.
  intros H. destruct (nao_atendidos st) as [|c resto] eqn:Hna.
  - rewrite (put_fila_vazia _ _ H Hna). split; [done|].
    by intros x ?%elem_of_nil.
  - pose proof (alc_passo _ _ PutFila H) as H'.
    cbn [executar criados] in H'. rewrite app_nil_r in H'.
    rewrite (put_fila_estado hist st c resto H Hna) in *. cbn [fst snd] in *.
    split; [simpl; lia|].
    intros x [k Hk]%list_elem_of_lookup_1. split.
    + right. by eapply list_elem_of_lookup_2.
    + unfold ver.
      rewrite (alcancavel_posicao_indice _ _ k x H'),
        (alcancavel_posicao_indice _ _ (S k) x H).
      * lia.
      * by rewrite Hna.
      * rewrite ordenar_nao_atendidos.
        by rewrite (servir_ordenados hist st c resto).
Qed.

Lemma put_fila_decrementa_witness :
  length (put_fila
            (executar (PostFila (mkClienteIn "Ana" Normal) 10) inicial)).2
  = Nat.sub
      (length (nao_atendidos
                 (executar (PostFila (mkClienteIn "Ana" Normal) 10) inicial)))
      1.
Proof.
  apply (put_fila_decrementa
           ([] ++ criados (PostFila (mkClienteIn "Ana" Normal) 10) inicial)).
  apply alc_passo, alc_inicial.
Defined.

(** X7: in a reachable state, a DELETE of an occupied position [id]
    leaves one unserved object fewer; every other unserved object stays
    unserved, keeps its position when it was below [id] and moves one
    position down when it was above. *)
Theorem delete_fila_id_desloca hist st id :
  alcancavel hist st → ocupada_em st id →
  let st' := (delete_fila_id id st).1 in
  S (length (nao_atendidos st')) = length (nao_atendidos st) ∧
  ∀ x, x ∈ nao_atendidos st → posicao (ver st x) ≠ id →
       x ∈ nao_atendidos st' ∧
       posicao (ver st' x)
       = if decide (posicao (ver st x) < id) then posicao (ver st x)
         else posicao (ver st x) - 1.
Proof.
  intros H Hoc st'. unfold st'. clear st'.
  pose proof (alc_passo _ _ (DeleteFilaId id) H) as H'.
  cbn [executar criados] in H'. rewrite app_nil_r in H'.
  destruct (delete_casos _ _ id H) as [[? _]|(c & Hc & Ha & Hp & Heq)];
    [done|].
  rewrite Heq in *. cbn [fst] in *.
  assert (c ∈ nao_atendidos st) as [kc Hkc]%list_elem_of_lookup_1
    by by apply list_elem_of_filter.
  pose proof (alcancavel_nao_atendidos_NoDup _ _ H) as Hnd.
  assert (nao_atendidos (ordenar_recalcular_posicoes
            (mkEstado (heap st) (filter (λ x, x ≠ c) (fila st))))
          = delete kc (nao_atendidos st)) as Hdel.
  { rewrite ordenar_nao_atendidos, (removido_ordenados hist) by done.
    by apply filter_ne_delete. }
  pose proof (alcancavel_posicao_indice _ _ _ _ H Hkc) as Hpc.
  split.
  - rewrite Hdel, length_delete by by eexists.
    apply lookup_lt_Some in Hkc. lia.
  - intros x [k Hk]%list_elem_of_lookup_1 Hx. unfold ver in *.
    pose proof (alcancavel_posicao_indice _ _ _ _ H Hk) as Hpx.
    rewrite Hpx in *.
    assert (k ≠ kc) as Hne by (intros ->; lia).
    case_decide.
    + assert (delete kc (nao_atendidos st) !! k = Some x) as Hk'
        by (rewrite list_lookup_delete_lt by lia; done).
      rewrite <- Hdel in Hk'. split; [by eapply list_elem_of_lookup_2|].
      by rewrite (alcancavel_posicao_indice _ _ _ _ H' Hk').
    + destruct k as [|k]; [lia|].
      assert (delete kc (nao_atendidos st) !! k = Some x) as Hk'
        by (rewrite list_lookup_delete_ge by lia; done).
      rewrite <- Hdel in Hk'. split; [by eapply list_elem_of_lookup_2|].
      rewrite (alcancavel_posicao_indice _ _ _ _ H' Hk'). lia.
Qed.

Lemma delete_fila_id_desloca_witness :
  S (length (nao_atendidos
       (delete_fila_id 1
          (executar (PostFila (mkClienteIn "Ana" Normal) 10) inicial)).1))
  = length (nao_atendidos
              (executar (PostFila (mkClienteIn "Ana" Normal) 10) inicial)).
Proof.
  apply (delete_fila_id_desloca
           ([] ++ criados (PostFila (mkClienteIn "Ana" Normal) 10) inicial)).
  - apply alc_passo, alc_inicial.
  - exists 1%positive. split_and!.
    + vm_compute. repeat constructor.
    + vm_compute. exact (λ H, H).
    + vm_compute. reflexivity.
Defined.

(** ** Where POST puts the new object *)

Lemma alcancavel_particao hist st :
  alcancavel hist st →
  nao_atendidos st
  = grupo Prioritario st
    ++ filter (λ x, ¬ prio (heap st) x) (nao_atendidos st).
Proof.
  intros H. pose proof (alcancavel_nao_atendidos _ _ H) as Hord.
  unfold ordenados in Hord. by rewrite sort_chave in Hord.
Qed.

Lemma novo_lista hist st o :
  alcancavel hist st → atendido o = false →
  let c := fresh (dom (heap st)) in
  let X := mkEstado (<[c := o]> (heap st)) (fila st ++ [c]) in
  let n := match tipo o with
           | Prioritario => length (grupo Prioritario st)
           | Normal => length (nao_atendidos st)
           end in
  nao_atendidos (ordenar_recalcular_posicoes X)
  = take n (nao_atendidos st) ++ c :: drop n (nao_atendidos st).
Proof.
  intros H Ho c X n. unfold n. clear n. subst X c.
  rewrite ordenar_nao_atendidos. unfold ordenados.
  rewrite sort_chave, (novo_nao_atendidos hist st o H Ho), !filter_app.
  rewrite (novo_prio hist st o H).
  set (c := fresh (dom (heap st))).
  set (X := mkEstado (<[c := o]> (heap st)) (fila st ++ [c])).
  assert (filter (λ x, ¬ prio (heap X) x) (nao_atendidos st)
          = filter (λ x, ¬ prio (heap st) x) (nao_atendidos st)) as ->.
  { apply filter_ext_elem. intros x [_ Hx]%list_elem_of_filter.
    unfold prio. by rewrite (novo_heap_fila hist st o H). }
  pose proof (alcancavel_particao _ _ H) as HU.
  assert (heap X !!! c = o) as Hco by apply (novo_heap st o).
  destruct (tipo o) eqn:Ht.
  - rewrite (filter_cons_False (prio _)), (filter_cons_True (λ x, ¬ prio _ x))
      by (unfold prio; rewrite Hco, Ht; done).
    rewrite take_ge, drop_ge by done.
    rewrite !app_nil_r, app_assoc. by rewrite <- HU.
  - rewrite (filter_cons_True (prio _)), (filter_cons_False (λ x, ¬ prio _ x))
      by (unfold prio; rewrite Hco, Ht; tauto).
    rewrite !app_nil_r.
    rewrite HU at 2 3.
    rewrite take_app_length, drop_app_length. by rewrite <- app_assoc.
Qed.

(** X8: in a reachable state POST leaves the unserved objects in the
    order they had and puts the new one among them: after the last
    unserved 'P' object for a 'P' request, at the end for an 'N' request.
    An unserved object keeps its position when it is at or before the
    insertion point and moves one position up otherwise. *)
Theorem post_fila_insere hist st novo agora :
  alcancavel hist st →
  let c := (post_fila novo agora st).2 in
  let st' := (post_fila novo agora st).1 in
  let n := match novo_tipo novo with
           | Prioritario => length (grupo Prioritario st)
           | Normal => length (nao_atendidos st)
           end in
  nao_atendidos st'
  = take n (nao_atendidos st) ++ c :: drop n (nao_atendidos st) ∧
  ∀ x, x ∈ nao_atendidos st →
       posicao (ver st' x)
       = if decide (posicao (ver st x) ≤ Z.of_nat n) then posicao (ver st x)
         else posicao (ver st x) + 1.
Proof.
  intros H c st' n.
  set (o := mkCliente 999999 (novo_nome novo) agora (novo_tipo novo) false).
  pose proof (novo_lista hist st o H eq_refl) as Hl. cbv zeta in Hl.
  pose proof (novo_alcancavel hist st o H eq_refl novo agora eq_refl) as H'.
  change (ordenar_recalcular_posicoes _) with st' in Hl, H'.
  change (fresh (dom (heap st))) with c in Hl.
  change (match tipo o with
          | Normal => length (nao_atendidos st)
          | Prioritario => length (grupo Prioritario st)
          end) with n in Hl.
  assert (n ≤ length (nao_atendidos st))%nat as Hn.
  { unfold n. destruct (novo_tipo novo); [done|]. apply length_filter. }
  split; [done|].
  intros x [k Hk]%list_elem_of_lookup_1. unfold ver.
  rewrite (alcancavel_posicao_indice _ _ _ _ H Hk).
  pose proof (lookup_lt_Some _ _ _ Hk) as Hlt.
  case_decide.
  - rewrite (alcancavel_posicao_indice _ _ k x H'); [done|].
    rewrite Hl, lookup_app_l by (rewrite length_take; lia).
    rewrite lookup_take_lt by lia. done.
  - rewrite (alcancavel_posicao_indice _ _ (S k) x H'); [lia|].
    rewrite Hl, lookup_app_r by (rewrite length_take; lia).
    rewrite length_take, Nat.min_l by done.
    replace (S k - n)%nat with (S (k - n)) by lia. simpl.
    rewrite lookup_drop. by replace (n + (k - n))%nat with k by lia.
Qed.

Lemma post_fila_insere_witness :
  nao_atendidos
    (post_fila (mkClienteIn "Bob" Prioritario) 20
       (executar (PostFila (mkClienteIn "Ana" Normal) 10) inicial)).1
  = take 0 (nao_atendidos
              (executar (PostFila (mkClienteIn "Ana" Normal) 10) inicial))
    ++ (post_fila (mkClienteIn "Bob" Prioritario) 20
          (executar (PostFila (mkClienteIn "Ana" Normal) 10) inicial)).2
       :: drop 0 (nao_atendidos
                    (executar (PostFila (mkClienteIn "Ana" Normal) 10)
                       inicial)).
Proof.
  apply (post_fila_insere
           ([] ++ criados (PostFila (mkClienteIn "Ana" Normal) 10) inicial)
           (executar (PostFila (mkClienteIn "Ana" Normal) 10) inicial)
           (mkClienteIn "Bob" Prioritario) 20).
  apply alc_passo, alc_inicial.
Defined.

(** ** Served objects stay *)

Lemma servir_atendido_fica p st c :
  atendido (heap st !!! c) → atendido (heap (servir p st) !!! c).
Proof.
  rewrite !lookup_total_alt, servir_lookup.
  case_decide; [|done]. by destruct (heap st !! c).
Qed.

Lemma executar_atendido_fica hist st p c :
  alcancavel hist st → c ∈ fila st → atendido (heap st !!! c) →
  c ∈ fila (executar p st) ∧ atendido (heap (executar p st) !!! c).
Proof.
  intros H Hc Ha. destruct p as [| |id|novo agora| |id]; cbn [executar].
  - done.
  - cbv beta zeta iota delta [get_fila fst].
    by rewrite ordenar_elem_of, ordenar_atendido.
  - by rewrite get_fila_id_estado, ordenar_elem_of, ordenar_atendido.
  - cbv beta zeta iota delta [post_fila fst snd].
    rewrite ordenar_elem_of, ordenar_atendido. split.
    + cbn [fila]. apply elem_of_app. by left.
    + by rewrite (novo_heap_fila hist st _ H).
  - cbv beta zeta iota delta [put_fila fst].
    rewrite ordenar_elem_of, ordenar_atendido.
    destruct (encontrar_por_posicao _ 1) as [x|].
    + split; [by apply ordenar_elem_of|].
      apply servir_atendido_fica. by rewrite ordenar_atendido.
    + by rewrite ordenar_elem_of, ordenar_atendido.
  - destruct (delete_casos _ _ id H) as [[_ ->]|(x & Hx & Hax & _ & ->)];
      [done|].
    cbn [fst]. rewrite ordenar_elem_of, ordenar_atendido. cbn [fila heap].
    split; [|done]. apply list_elem_of_filter. split; [|done].
    intros ->. done.
Qed.

Lemma executar_todos_atendido_fica hist st ps c :
  alcancavel hist st → c ∈ fila st → atendido (heap st !!! c) →
  c ∈ fila (executar_todos ps st)
  ∧ atendido (heap (executar_todos ps st) !!! c).
Proof.
  revert hist st. induction ps as [|p ps IH]; intros hist st H Hc Ha; simpl.
  - done.
  - destruct (executar_atendido_fica _ _ p c H Hc Ha) as [Hc' Ha'].
    by apply (IH (hist ++ criados p st)); [apply alc_passo|..].
Qed.

(** X9: in a reachable state a served object of the list stays in the
    list, served and with position 0, after every sequence of requests;
    no request removes it or makes it unserved again. *)
Theorem atendido_para_sempre hist st ps c :
  alcancavel hist st → c ∈ fila st → atendido (ver st c) = true →
  let st' := executar_todos ps st in
  c ∈ fila st' ∧ atendido (ver st' c) = true ∧ posicao (ver st' c) = 0.
Proof.
  intros H Hc Ha st'. unfold ver in *.
  destruct (executar_todos_atendido_fica hist st ps c H Hc) as [Hc' Ha'].
  { by rewrite Ha. }
  destruct (alcancavel_todos _ _ ps H) as [hist' H'].
  destruct (alcancavel_inv _ _ H') as [[_ Hs _ _ _] _].
  fold st' in Hc', Ha', Hs.
  split_and!; [done| |by apply Hs].
  by destruct (atendido (heap st' !!! c)).
Qed.

Lemma atendido_para_sempre_witness :
  2%positive
  ∈ fila (executar_todos [DeleteFilaId 0; DeleteFilaId 1; PutFila]
            (executar PutFila
               (executar (PostFila (mkClienteIn "Bob" Prioritario) 20)
                  (executar (PostFila (mkClienteIn "Ana" Normal) 10)
                     inicial)))).
Proof.
  apply (atendido_para_sempre
    ((([] ++ criados (PostFila (mkClienteIn "Ana" Normal) 10) inicial)
      ++ criados (PostFila (mkClienteIn "Bob" Prioritario) 20)
           (executar (PostFila (mkClienteIn "Ana" Normal) 10) inicial))
     ++ criados PutFila
          (executar (PostFila (mkClienteIn "Bob" Prioritario) 20)
             (executar (PostFila (mkClienteIn "Ana" Normal) 10) inicial)))).
  - apply alc_passo, alc_passo, alc_passo, alc_inicial.
  - vm_compute. repeat constructor.
  - vm_compute. reflexivity.
Defined.

(** X10: in a reachable state, [k] PUTs in a row serve the first [k]
    objects of the listing, in listing order: the unserved objects that
    remain are the listing without its first [k] elements, and each of
    those first [k] is still in the list, served, with position 0. *)
Theorem put_fila_k_vezes hist st k :
  alcancavel hist st →
  let st' := executar_todos (replicate k PutFila) st in
  nao_atendidos st' = drop k (nao_atendidos st) ∧
  ∀ x, x ∈ take k (nao_atendidos st) →
       x ∈ fila st' ∧ atendido (ver st' x) = true ∧ posicao (ver st' x) = 0.
Proof.
  revert hist st. induction k as [|k IH]; intros hist st H.
  - split; [done|]. by intros x ?%elem_of_nil.
  - change (executar_todos (replicate (S k) PutFila) st)
      with (executar_todos (replicate k PutFila) (executar PutFila st)).
    cbv zeta.
    pose proof (alc_passo _ _ PutFila H) as H'.
    cbn [criados] in H'. rewrite app_nil_r in H'.
    destruct (IH _ _ H') as [IH1 IH2]. cbv zeta in IH1, IH2.
    cbn [executar] in *.
    destruct (nao_atendidos st) as [|c resto] eqn:Hna.
    + rewrite (put_fila_vazia _ _ H Hna) in *. cbn [fst] in *.
      rewrite IH1, Hna. split; [by rewrite drop_nil|].
      by intros x ?%elem_of_nil.
    + rewrite (put_fila_estado hist st c resto H Hna) in *. cbn [fst] in *.
      assert (nao_atendidos (ordenar_recalcular_posicoes (servir c st))
              = resto) as Hresto
        by (rewrite ordenar_nao_atendidos; by apply (servir_ordenados hist)).
      rewrite Hresto in IH1, IH2. split; [done|].
      intros x [->|Hx]%elem_of_cons; [|by apply IH2].
      destruct (primeiro_vivo hist st c resto H Hna) as [o Ho].
      assert (atendido (heap (servir c st) !!! c)) as Hac
        by by rewrite (servir_mesmo _ _ o).
      assert (c ∈ fila st) as Hc.
      { assert (c ∈ nao_atendidos st) as [_ ?]%list_elem_of_filter; [|done].
        rewrite Hna. by left. }
      destruct (executar_todos_atendido_fica hist
                  (ordenar_recalcular_posicoes (servir c st))
                  (replicate k PutFila) c H') as [Hc' Ha'].
      { by apply ordenar_elem_of. }
      { by rewrite ordenar_atendido. }
      destruct (alcancavel_todos _ _ (replicate k PutFila) H')
        as [hist' H''].
      destruct (alcancavel_inv _ _ H'') as [[_ Hs _ _ _] _].
      unfold ver. split_and!; [done| |by apply Hs].
      by apply Is_true_true.
Qed.

Lemma put_fila_k_vezes_witness :
  nao_atendidos
    (executar_todos (replicate 2 PutFila)
       (executar (PostFila (mkClienteIn "Ana" Normal) 10) inicial))
  = drop 2 (nao_atendidos
              (executar (PostFila (mkClienteIn "Ana" Normal) 10) inicial)).
Proof.
  apply (put_fila_k_vezes
           ([] ++ criados (PostFila (mkClienteIn "Ana" Normal) 10) inicial)).
  apply alc_passo, alc_inicial.
Defined.

(** ** POST followed by DELETE of the new object *)

Lemma Cliente_ext (o o' : Cliente) :
  posicao o = posicao o' → nome o = nome o' → chegada o = chegada o' →
  tipo o = tipo o' → atendido o = atendido o' → o = o'.
Proof. destruct o, o'. simpl. by intros -> -> -> -> ->. Qed.

Lemma novo_atendidos hist st o :
  alcancavel hist st → atendido o = false →
  let c := fresh (dom (heap st)) in
  atendidos (mkEstado (<[c := o]> (heap st)) (fila st ++ [c])) = atendidos st.
Proof.
  intros H Ho c. subst c. unfold atendidos. cbn [fila heap].
  rewrite filter_app, filter_cons_False, filter_nil, app_nil_r.
  - apply filter_ext_elem. intros x Hx.
    pose proof (novo_heap_fila hist st o H x Hx) as Hh. cbn [heap] in Hh.
    by rewrite Hh.
  - rewrite lookup_total_insert_eq, Ho. simpl. auto.
Qed.

(** X11: in a reachable state, a POST followed by a DELETE of the
    position the new object was given succeeds and puts the queue back:
    the list is the one before the POST, and every object in it shows the
    fields it showed before. *)
Theorem post_delete_restaura hist st novo agora :
  alcancavel hist st →
  let st2 := (post_fila novo agora st).1 in
  let c := (post_fila novo agora st).2 in
  let r := delete_fila_id (posicao (ver st2 c)) st2 in
  r.2 = inr () ∧ fila r.1 = fila st ∧ ∀ x, x ∈ fila st → ver r.1 x = ver st x.
Proof.
  intros H st2 c r.
  set (o := mkCliente 999999 (novo_nome novo) agora (novo_tipo novo) false).
  set (X := mkEstado (<[c := o]> (heap st)) (fila st ++ [c])).
  pose proof (novo_alcancavel hist st o H eq_refl novo agora eq_refl) as H2.
  change (ordenar_recalcular_posicoes _) with st2 in H2.
  change (fresh (dom (heap st))) with c in H2.
  pose proof (novo_fora_da_fila hist st H) as Hfora.
  change (fresh (dom (heap st))) with c in Hfora.
  assert (c ∈ fila st2) as Hc.
  { apply ordenar_elem_of. apply elem_of_app. right. by left. }
  assert (heap X !!! c = o) as Hco by apply (novo_heap st o).
  assert (¬ atendido (heap st2 !!! c)) as Ha.
  { change st2 with (ordenar_recalcular_posicoes X).
    rewrite ordenar_atendido, Hco. simpl. auto. }
  pose proof (delete_fila_id_estado _ _ c H2 Hc Ha) as Hdel.
  pose proof (alc_passo _ _ (DeleteFilaId (posicao (heap st2 !!! c))) H2)
    as H3.
  cbn [executar criados] in H3. rewrite app_nil_r in H3.
  unfold r, ver. rewrite Hdel in *. cbn [fst snd] in *. clear r.
  set (Zs := mkEstado (heap st2) (filter (λ x, x ≠ c) (fila st2))) in *.
  pose proof (novo_lista hist st o H eq_refl) as Hl. cbv zeta in Hl.
  change (ordenar_recalcular_posicoes _) with st2 in Hl.
  change (fresh (dom (heap st))) with c in Hl.
  assert (c ∉ nao_atendidos st) as Hcu
    by (intros [_ ?]%list_elem_of_filter; done).
  assert (filter (λ x, x ≠ c) (nao_atendidos st2) = nao_atendidos st) as Hu.
  { rewrite Hl, filter_app, filter_ne_cons, filter_ne_notin.
    - apply take_drop.
    - intros Hin. apply Hcu. by eapply subseteq_take.
    - intros Hin. apply Hcu. by eapply subseteq_drop. }
  assert (atendidos st2 = atendidos st) as Hat.
  { change st2 with (ordenar_recalcular_posicoes X).
    rewrite ordenar_atendidos. by apply (novo_atendidos hist). }
  assert (fila (ordenar_recalcular_posicoes Zs) = fila st) as Hfila.
  { unfold Zs. rewrite (removido_fila (hist ++ [c]) st2 c H2).
    rewrite (alcancavel_fila _ _ H2), filter_app, Hu, Hat.
    etrans; [|symmetry; apply (alcancavel_fila _ _ H)]. f_equal.
    apply filter_ne_notin. intros [_ ?]%list_elem_of_filter. done. }
  assert (nao_atendidos (ordenar_recalcular_posicoes Zs) = nao_atendidos st)
    as Hna.
  { unfold Zs. rewrite ordenar_nao_atendidos.
    by rewrite (removido_ordenados (hist ++ [c]) st2 c H2). }
  assert (∀ x, x ∈ fila st → heap X !!! x = heap st !!! x) as HX.
  { intros x Hx. apply lookup_total_insert_ne. by intros <-. }
  split_and!; [done..|].
  intros x Hx.
  destruct (ordenar_campos Zs x) as (En & Ec & Et & Ea).
  destruct (ordenar_campos X x) as (En2 & Ec2 & Et2 & Ea2).
  change (ordenar_recalcular_posicoes X) with st2 in En2, Ec2, Et2, Ea2.
  change (heap Zs) with (heap st2) in En, Ec, Et, Ea.
  rewrite (HX x Hx) in En2, Ec2, Et2, Ea2.
  apply Cliente_ext; try congruence.
  destruct (atendido (heap st !!! x)) eqn:Hax.
  - rewrite ordenar_intacto_atendido
      by (change (heap Zs) with (heap st2); by rewrite Ea2).
    change (heap Zs) with (heap st2).
    change st2 with (ordenar_recalcular_posicoes X).
    rewrite ordenar_intacto_atendido.
    + by rewrite (HX x Hx).
    + rewrite (HX x Hx), Hax. simpl. auto.
  - assert (x ∈ nao_atendidos st) as [k Hk]%list_elem_of_lookup_1.
    { apply list_elem_of_filter. rewrite Hax. simpl. auto. }
    rewrite (alcancavel_posicao_indice _ _ k x H Hk).
    apply (alcancavel_posicao_indice _ _ k x H3). by rewrite Hna.
Qed.

Lemma post_delete_restaura_witness :
  fila (delete_fila_id
          (posicao
             (ver (post_fila (mkClienteIn "Bob" Prioritario) 20
                     (executar (PostFila (mkClienteIn "Ana" Normal) 10)
                        inicial)).1
                  (post_fila (mkClienteIn "Bob" Prioritario) 20
                     (executar (PostFila (mkClienteIn "Ana" Normal) 10)
                        inicial)).2))
          (post_fila (mkClienteIn "Bob" Prioritario) 20
             (executar (PostFila (mkClienteIn "Ana" Normal) 10)
                inicial)).1).1
  = fila (executar (PostFila (mkClienteIn "Ana" Normal) 10) inicial).
Proof.
  apply (post_delete_restaura
           ([] ++ criados (PostFila (mkClienteIn "Ana" Normal) 10) inicial)
           (executar (PostFila (mkClienteIn "Ana" Normal) 10) inicial)
           (mkClienteIn "Bob" Prioritario) 20).
  apply alc_passo, alc_inicial.
Defined.

(** ** The routine on any well-formed list, and the shape of the list *)

Lemma grupo_normal st :
  grupo Normal st = filter (λ x, ¬ prio (heap st) x) (nao_atendidos st).
Proof.
  apply list_filter_iff. intros c. unfold prio.
  destruct (tipo (heap st !!! c)); naive_solver.
Qed.

(** X12: on every state whose list has no duplicates and only live
    references (reachable or not), [ordenar_recalcular_posicoes] rewrites
    the list as the unserved 'P' objects, then the unserved 'N' objects,
    then the served objects, each group in the order it had; the result
    has the same elements; the unserved objects get positions 1..K in that
    order; served objects and objects outside the list are not written
    to; and the result is again such a state. *)
Theorem ordenar_recalcular_posicoes_contrato st :
  bem_formado st →
  let st' := ordenar_recalcular_posicoes st in
  fila st' = grupo Prioritario st ++ grupo Normal st ++ atendidos st ∧
  fila st' ≡ₚ fila st ∧
  posicoes st' = seqZ 1 (Z.of_nat (length (nao_atendidos st))) ∧
  (∀ x, atendido (heap st !!! x) → heap st' !! x = heap st !! x) ∧
  (∀ x, x ∉ fila st → heap st' !! x = heap st !! x) ∧
  bem_formado st'.
Proof.
  intros Hbf st'. unfold st'. split_and!.
  - rewrite ordenar_fila, app_assoc. f_equal.
    unfold ordenados. by rewrite sort_chave, grupo_normal.
  - apply ordenar_perm.
  - rewrite (ordenar_posicoes _ Hbf), ordenar_nao_atendidos.
    unfold ordenados. by rewrite sort_chave_length.
  - intros x Hx. apply ordenar_intacto. rewrite ordenados_elem_of. tauto.
  - intros x Hx. apply ordenar_intacto. rewrite ordenados_elem_of. tauto.
  - by apply ordenar_bem_formado.
Qed.

Lemma ordenar_recalcular_posicoes_contrato_witness :
  fila (ordenar_recalcular_posicoes
          (mkEstado
             (<[1%positive := mkCliente 5 "a" 0 Normal true]>
                (<[2%positive := mkCliente 7 "b" 1 Normal false]>
                   (<[3%positive := mkCliente 7 "c" 2 Prioritario false]> ∅)))
             [1%positive; 2%positive; 3%positive]))
  ≡ₚ [1%positive; 2%positive; 3%positive].
Proof.
  apply (ordenar_recalcular_posicoes_contrato
           (mkEstado
              (<[1%positive := mkCliente 5 "a" 0 Normal true]>
                 (<[2%positive := mkCliente 7 "b" 1 Normal false]>
                    (<[3%positive := mkCliente 7 "c" 2 Prioritario false]> ∅)))
              [1%positive; 2%positive; 3%positive])).
  split.
  - cbn [fila]. repeat constructor; intros Hin;
      repeat (apply elem_of_cons in Hin as [Hin|Hin]; [discriminate Hin|]);
      by apply elem_of_nil in Hin.
  - cbn [fila heap]. intros c Hin.
    repeat (apply elem_of_cons in Hin as [->|Hin];
            [vm_compute; eexists; reflexivity|]).
    by apply elem_of_nil in Hin.
Defined.

Lemma alcancavel_fila_hist hist st c :
  alcancavel hist st → c ∈ fila st → c ∈ hist.
Proof.
  induction 1 as [|hist st p _ IH]; simpl.
  - by intros ?%elem_of_nil.
  - intros [Hc|Hc]%executar_fila; apply elem_of_app; [left; by apply IH|].
    by right.
Qed.

(** X13: in every reachable state the list holds no object twice, every
    object in it is live and was returned by an earlier POST (each POST
    returned an object of its own), and the list is laid out as the
    unserved 'P' objects, then the unserved 'N' objects, then the served
    objects. *)
Theorem fila_bem_formada hist st :
  alcancavel hist st →
  NoDup (fila st) ∧ NoDup hist ∧
  (∀ c, c ∈ fila st → c ∈ hist ∧ is_Some (heap st !! c)) ∧
  fila st = grupo Prioritario st ++ grupo Normal st ++ atendidos st.
Proof.
  intros H. destruct (alcancavel_inv _ _ H) as [[[Hnd Hh] _ Hhnd _ _] _].
  split_and!; [done..| |].
  - intros c Hc. split; [by apply (alcancavel_fila_hist hist st)|by apply Hh].
  - rewrite (alcancavel_fila _ _ H) at 1. rewrite app_assoc. f_equal.
    rewrite grupo_normal. by apply (alcancavel_particao hist).
Qed.

Lemma fila_bem_formada_witness :
  NoDup (fila (executar PutFila
                 (executar (PostFila (mkClienteIn "Ana" Normal) 10) inicial))).
Proof.
  apply (fila_bem_formada
           (([] ++ criados (PostFila (mkClienteIn "Ana" Normal) 10) inicial)
            ++ criados PutFila
                 (executar (PostFila (mkClienteIn "Ana" Normal) 10) inicial))).
  apply alc_passo, alc_passo, alc_inicial.
Defined.
